(** * Streaming upload of the S3 client: [Put] and [BlockingWriteCloser]

    A shallow embedding of [pkg/client/s3/object_put.go].  Go strings are
    byte strings ([string] over 8-bit [ascii]), byte slices are
    [list byte], the [error] interface is [option error] with [None] for
    [nil], and a [map] is a [gmap].  The pieces of the Go standard library
    the file calls ([strings], [encoding/hex], [encoding/base64], [io.Pipe],
    [sync.WaitGroup]) are written out in modules that carry the package
    names. *)

From Stdlib Require Import ZArith NArith List String Ascii Bool Lia.
From Stdlib.Strings Require Import Byte.
From stdpp Require Import gmap strings.
Import ListNotations.

Local Open Scope string_scope.
Local Open Scope Z_scope.
Local Open Scope list_scope.

(** ** Bytes *)

Definition byte_of_N (n : N) : byte := byte_of_ascii (ascii_of_N n).
Definition N_of_byte (b : byte) : N := Byte.to_N b.

Fixpoint bytes_of_string (s : string) : list byte :=
  match s with
  | EmptyString => []
  | String c s' => byte_of_ascii c :: bytes_of_string s'
  end.

Fixpoint string_of_bytes (l : list byte) : string :=
  match l with
  | [] => EmptyString
  | b :: l' => String (ascii_of_byte b) (string_of_bytes l')
  end.

(** ** Package [strings] *)

Module strings.

(** [unicode.IsSpace] on the UTF-8 encoding: the length in bytes of the
    white-space rune the byte sequence starts with, [0] when it starts
    with none.  The white-space runes are U+0009..U+000D, U+0020, U+0085,
    U+00A0, U+1680, U+2000..U+200A, U+2028, U+2029, U+202F, U+205F and
    U+3000. *)
Definition space_prefix (l : list N) : nat :=
  match l with
  | 9%N :: _ | 10%N :: _ | 11%N :: _ | 12%N :: _ | 13%N :: _ | 32%N :: _ => 1
  | 194%N :: 133%N :: _ | 194%N :: 160%N :: _ => 2
  | 225%N :: 154%N :: 128%N :: _ => 3
  | 226%N :: 128%N :: c :: _ =>
      if ((128 <=? c) && (c <=? 138))%N || (c =? 168)%N || (c =? 169)%N
         || (c =? 175)%N
      then 3 else 0
  | 226%N :: 129%N :: 159%N :: _ => 3
  | 227%N :: 128%N :: 128%N :: _ => 3
  | _ => 0
  end%nat.

(** The same test on a reversed byte sequence: the length of the
    white-space rune the original sequence ends with. *)
Definition space_suffix_rev (l : list N) : nat :=
  match l with
  | 9%N :: _ | 10%N :: _ | 11%N :: _ | 12%N :: _ | 13%N :: _ | 32%N :: _ => 1
  | 133%N :: 194%N :: _ | 160%N :: 194%N :: _ => 2
  | 128%N :: 154%N :: 225%N :: _ => 3
  | c :: 128%N :: 226%N :: _ =>
      if ((128 <=? c) && (c <=? 138))%N || (c =? 168)%N || (c =? 169)%N
         || (c =? 175)%N
      then 3 else 0
  | 159%N :: 129%N :: 226%N :: _ => 3
  | 128%N :: 128%N :: 227%N :: _ => 3
  | _ => 0
  end%nat.

(** Strip runes while [width] recognises one at the front; [fuel] bounds
    the number of runes by the number of bytes. *)
Fixpoint strip (width : list N -> nat) (fuel : nat) (l : list N) : list N :=
  match fuel with
  | O => l
  | S fuel' =>
      match width l with
      | O => l
      | k => strip width fuel' (skipn k l)
      end
  end.

Definition codes (s : string) : list N := map N_of_byte (bytes_of_string s).
Definition uncodes (l : list N) : string := string_of_bytes (map byte_of_N l).

Definition TrimLeftSpace (l : list N) : list N :=
  strip space_prefix (length l) l.

Definition TrimRightSpace (l : list N) : list N :=
  rev (strip space_suffix_rev (length l) (rev l)).

(** [strings.TrimSpace]: leading and trailing white space removed. *)
Definition TrimSpace (s : string) : string :=
  uncodes (TrimRightSpace (TrimLeftSpace (codes s))).

(** The UTF-8 encodings of the white-space runes, listed. *)
Inductive space_rune : list N -> Prop :=
| space_ascii c : (9 <= c <= 13 \/ c = 32)%N -> space_rune [c]
| space_latin1 c : (c = 133 \/ c = 160)%N -> space_rune [194%N; c]
| space_ogham : space_rune [225; 154; 128]%N
| space_general c :
    (128 <= c <= 138 \/ c = 168 \/ c = 169 \/ c = 175)%N ->
    space_rune [226%N; 128%N; c]
| space_math : space_rune [226; 129; 159]%N
| space_ideographic : space_rune [227; 128; 128]%N.

(** A byte sequence that is empty or consists of white space only. *)
Inductive blank : list N -> Prop :=
| blank_nil : blank []
| blank_rune r l : space_rune r -> blank l -> blank (r ++ l).

(** [strings.Contains]. *)
Definition Contains (s substr : string) : bool :=
  match index 0 substr s with
  | Some _ => true
  | None => false
  end.

End strings.

(** ** Package [encoding/hex] *)

Module hex.

Inductive decode_error :=
| ErrLength
| InvalidByteError (b : byte).

(** [fromHexChar]: the value of one hexadecimal digit. *)
Definition fromHexChar (c : byte) : option N :=
  let n := N_of_byte c in
  if ((48 <=? n) && (n <=? 57))%N then Some (n - 48)%N
  else if ((97 <=? n) && (n <=? 102))%N then Some (n - 97 + 10)%N
  else if ((65 <=? n) && (n <=? 70))%N then Some (n - 65 + 10)%N
  else None.

(** The loop of [hex.Decode] over the pairs of digits. *)
Fixpoint decode_pairs (src : list byte) : list byte + decode_error :=
  match src with
  | c1 :: c2 :: rest =>
      match fromHexChar c1 with
      | None => inr (InvalidByteError c1)
      | Some a =>
          match fromHexChar c2 with
          | None => inr (InvalidByteError c2)
          | Some b =>
              match decode_pairs rest with
              | inl dst => inl (byte_of_N (N.lor (N.shiftl a 4) b) :: dst)
              | inr e => inr e
              end
          end
      end
  | _ => inl []
  end.

(** [hex.DecodeString]: an odd length is [ErrLength], a byte that is not
    a hexadecimal digit is [InvalidByteError].  Which of the two a string
    with both faults gets is the choice of [hex.Decode]; nothing below
    depends on it. *)
Definition DecodeString (s : string) : list byte + decode_error :=
  let src := bytes_of_string s in
  if Nat.odd (length src) then inr ErrLength else decode_pairs src.

(** The strings [DecodeString] accepts, stated on their own: an even
    number of characters, each a hexadecimal digit. *)
Definition is_hex (s : string) : bool :=
  Nat.even (length (bytes_of_string s))
  && forallb (fun c => match fromHexChar c with Some _ => true | None => false end)
             (bytes_of_string s).

End hex.

(** ** Package [encoding/base64] *)

Module base64.

Definition encodeStd : string :=
  "ABCDEFGHIJKLMNOPQRSTUVWXYZabcdefghijklmnopqrstuvwxyz0123456789+/".

(** [enc.encode[b]] for the standard alphabet. *)
Definition encode (b : N) : ascii :=
  match String.get (N.to_nat b) encodeStd with
  | Some c => c
  | None => "="%char
  end.

(** [Encoding.Encode] with the standard alphabet and padding: three
    source bytes give four characters, the last quantum is padded. *)
Fixpoint Encode (src : list N) : string :=
  match src with
  | [] => EmptyString
  | [s0] =>
      let b0 := N.shiftr s0 2 in
      let b1 := N.land (N.shiftl s0 4) 63 in
      String (encode b0) (String (encode b1) "==")
  | [s0; s1] =>
      let b0 := N.shiftr s0 2 in
      let b1 := N.lor (N.land (N.shiftl s0 4) 63) (N.shiftr s1 4) in
      let b2 := N.land (N.shiftl s1 2) 63 in
      String (encode b0) (String (encode b1) (String (encode b2) "="))
  | s0 :: s1 :: s2 :: rest =>
      let b0 := N.shiftr s0 2 in
      let b1 := N.lor (N.land (N.shiftl s0 4) 63) (N.shiftr s1 4) in
      let b2 := N.lor (N.land (N.shiftl s1 2) 63) (N.shiftr s2 6) in
      let b3 := N.land s2 63 in
      String (encode b0) (String (encode b1) (String (encode b2)
        (String (encode b3) (Encode rest))))
  end.

(** [base64.StdEncoding.EncodeToString]. *)
Definition StdEncoding_EncodeToString (src : list byte) : string :=
  Encode (map N_of_byte src).

End base64.


(** ** Calls that return, block or panic *)

(** A Go call on a state either returns a value, blocks (it returns only
    after another goroutine has changed the state) or panics. *)
Inductive completion (A : Type) : Type :=
| Returned (a : A)
| Blocked
| Panicked (msg : string).
Arguments Returned {A} a.
Arguments Blocked {A}.
Arguments Panicked {A} msg.

(** Sequential code over a state [S]: the state after the call together
    with how the call completed. *)
Definition M (S A : Type) : Type := S -> S * completion A.

Definition ret {S A} (a : A) : M S A := fun s => (s, Returned a).

Definition bind {S A B} (m : M S A) (k : A -> M S B) : M S B :=
  fun s =>
    match m s with
    | (s', Returned a) => k a s'
    | (s', Blocked) => (s', Blocked)
    | (s', Panicked msg) => (s', Panicked msg)
    end.

Definition get {S} : M S S := fun s => (s, Returned s).
Definition modify {S} (f : S -> S) : M S unit := fun s => (f s, Returned tt).

(** Run [m] on the component of the state selected by [proj] and written
    back by [upd]. *)
Definition zoom {S T A} (proj : S -> T) (upd : T -> S -> S) (m : M T A) : M S A :=
  fun s => let (t, c) := m (proj s) in (upd t s, c).

Declare Scope go_scope.
Delimit Scope go_scope with go.
Notation "x <- m ;; k" := (bind m (fun x => k))
  (at level 100, m at next level, right associativity) : go_scope.
Notation "m ;;; k" := (bind m (fun _ => k))
  (at level 100, right associativity) : go_scope.

(** ** Package [net/http]: what [Put] touches of a request and a response *)

Module http.

Definition StatusOK : Z := 200.

Record Response := { StatusCode : Z; ResponseBody : string }.

(** The request body of an upload is the read end of its pipe. *)
Inductive body := PipeReader.

Record Request := {
  Method : string;
  URL : string;
  Header : gmap string (list string);
  ContentLength : Z;
  Body : body
}.

Definition upper (c : ascii) : ascii :=
  let n := N_of_ascii c in
  if ((97 <=? n) && (n <=? 122))%N then ascii_of_N (n - 32) else c.

Definition lower (c : ascii) : ascii :=
  let n := N_of_ascii c in
  if ((65 <=? n) && (n <=? 90))%N then ascii_of_N (n + 32) else c.

(** [textproto.CanonicalMIMEHeaderKey]: the first letter and every
    letter after a dash in upper case, the others in lower case. *)
Fixpoint canonical (up : bool) (s : string) : string :=
  match s with
  | EmptyString => EmptyString
  | String c s' =>
      let c' := if up then upper c else lower c in
      String c' (canonical (Ascii.eqb c' "-") s')
  end.

Definition CanonicalMIMEHeaderKey (s : string) : string := canonical true s.

(** [Header.Set]: the values of the canonical key are replaced by the one
    value. *)
Definition Header_Set (key value : string) (h : gmap string (list string))
  : gmap string (list string) :=
  <[CanonicalMIMEHeaderKey key := [value]]> h.

(** [Header.Get]: the first value of the canonical key, the empty string
    when there is none. *)
Definition Header_Get (key : string) (h : gmap string (list string)) : string :=
  match h !! CanonicalMIMEHeaderKey key with
  | Some (v :: _) => v
  | _ => ""
  end.

Definition set_Method (m : string) (req : Request) : Request :=
  {| Method := m; URL := URL req; Header := Header req;
     ContentLength := ContentLength req; Body := Body req |}.

Definition set_ContentLength (n : Z) (req : Request) : Request :=
  {| Method := Method req; URL := URL req; Header := Header req;
     ContentLength := n; Body := Body req |}.

Definition set_Header (h : gmap string (list string)) (req : Request) : Request :=
  {| Method := Method req; URL := URL req; Header := h;
     ContentLength := ContentLength req; Body := Body req |}.

End http.

(** ** Errors *)

(** The error values that occur in an upload.  [foreign] stands for an
    error made outside this file (by [newRequest] or by the transport);
    [iodine_Error] is an error wrapped by [iodine.New]. *)
Inductive error :=
| InvalidBucketName (Bucket : string)
| InvalidArgument (Err : error)
| errors_New (text : string)
| hex_error (e : hex.decode_error)
| ErrClosedPipe
| EOF
| s3_Error (res : http.Response)
| foreign (text : string)
| iodine_Error (e : error).

(** Modelled from the spec: [NewError], whose source is not given; the
    failure it makes of a response that is not OK carries that response
    (its status and body). *)
Definition NewError (res : http.Response) : error := s3_Error res.

Module iodine.
(** [iodine.New(err, nil)] for an [err] that is not nil, the only use
    [Put] makes of it: the error wrapped with its origin. *)
Definition New (err : error) : error := iodine_Error err.
End iodine.

(** ** Package [sync] *)

Module sync.

Record WaitGroup := { counter : Z }.

(** [WaitGroup.Add]: a counter that goes negative panics. *)
Definition Add (delta : Z) : M WaitGroup unit :=
  fun wg =>
    let v := counter wg + delta in
    if v <? 0 then ({| counter := v |}, Panicked "sync: negative WaitGroup counter")
    else ({| counter := v |}, Returned tt).

Definition Done : M WaitGroup unit := Add (-1).

(** [WaitGroup.Wait] returns once the counter is zero. *)
Definition Wait : M WaitGroup unit :=
  fun wg => if counter wg =? 0 then (wg, Returned tt) else (wg, Blocked).

End sync.

(** ** Package [io]: the synchronous pipe *)

Module io.

(** The state shared by the two ends: the bytes of the write in flight,
    the error the read end was closed with and the error the write end
    was closed with. *)
Record pipe := {
  data : option (list byte);
  rerr : option error;
  werr : option error
}.

(** [io.Pipe()]. *)
Definition Pipe : pipe := {| data := None; rerr := None; werr := None |}.

(** [PipeReader.CloseWithError(err)]; later writes fail with [err], with
    [ErrClosedPipe] when [err] is nil.  It returns nil. *)
Definition PipeReader_CloseWithError (err : option error) : M pipe (option error) :=
  fun p =>
    ({| data := data p; rerr := Some (default ErrClosedPipe err); werr := werr p |},
     Returned None).

(** [PipeReader.Close()]. *)
Definition PipeReader_Close : M pipe (option error) := PipeReader_CloseWithError None.

(** [PipeWriter.Close()]: the reader sees the end of the stream.  It
    returns nil. *)
Definition PipeWriter_Close : M pipe (option error) :=
  fun p =>
    ({| data := data p; rerr := rerr p; werr := Some EOF |}, Returned None).

(** [PipeWriter.Write(b)], first half: a write on a closed write end
    fails at once, otherwise the bytes are offered to the reader. *)
Definition write_offer (b : list byte) (p : pipe) : pipe + (nat * option error) :=
  match werr p with
  | Some _ => inr (0%nat, Some ErrClosedPipe)
  | None => inl {| data := Some b; rerr := rerr p; werr := werr p |}
  end.

(** [PipeWriter.Write(b)], second half: the write returns when the reader
    has taken all the bytes, or fails with the error the read end was
    closed with, reporting the bytes taken so far; until then it blocks. *)
Definition write_wait (b : list byte) : M pipe (nat * option error) :=
  fun p =>
    match data p with
    | None => (p, Returned (length b, None))
    | Some d =>
        match rerr p with
        | Some e =>
            ({| data := None; rerr := rerr p; werr := werr p |},
             Returned ((length b - length d)%nat, Some e))
        | None => (p, Blocked)
        end
    end.

Definition PipeWriter_Write (b : list byte) : M pipe (nat * option error) :=
  fun p =>
    match write_offer b p with
    | inr res => (p, Returned res)
    | inl p' => write_wait b p'
    end.

(** A read of up to [k] bytes by the consumer of the read end. *)
Definition read (k : nat) (p : pipe) : pipe :=
  match data p with
  | None => p
  | Some d =>
      {| data := match skipn k d with [] => None | d' => Some d' end;
         rerr := rerr p; werr := werr p |}
  end.

(** The interface [io.WriteCloser]. *)
Class WriteCloser (W : Type) := {
  wc_Write : list byte -> M W (nat * option error);
  wc_Close : M W (option error)
}.

#[global] Instance PipeWriter : WriteCloser pipe := {
  wc_Write := PipeWriter_Write;
  wc_Close := PipeWriter_Close
}.

End io.

(** ** [BlockingWriteCloser] *)

(** [w] is the wrapped writer, [release] the wait group [Close] waits on,
    [err] the recorded error. *)
Record BlockingWriteCloser (W : Type) := {
  w : W;
  release : sync.WaitGroup;
  err : option error
}.
Arguments w {W} _.
Arguments release {W} _.
Arguments err {W} _.

Section BlockingWriteCloser.

Context {W : Type} `{io.WriteCloser W}.

Definition set_w (x : W) (b : BlockingWriteCloser W) : BlockingWriteCloser W :=
  {| w := x; release := release b; err := err b |}.

Definition set_release (wg : sync.WaitGroup) (b : BlockingWriteCloser W)
  : BlockingWriteCloser W :=
  {| w := w b; release := wg; err := err b |}.

Definition set_err (e : option error) (b : BlockingWriteCloser W)
  : BlockingWriteCloser W :=
  {| w := w b; release := release b; err := e |}.

(** [if err != nil { b.err = err }]. *)
Definition record (e : option error) : M (BlockingWriteCloser W) unit :=
  modify (fun b => match e with Some _ => set_err e b | None => b end).

(** [b.release.Done()], the first statement of [Release]. *)
Definition release_Done : M (BlockingWriteCloser W) unit :=
  zoom release set_release sync.Done.

(** [Write]: the error of the wrapped write is recorded, the recorded
    error is returned. *)
Definition Write (p : list byte) : M (BlockingWriteCloser W) (nat * option error) :=
  (r <- zoom w set_w (io.wc_Write p) ;;
   record (snd r) ;;;
   b <- get ;;
   ret (fst r, err b))%go.

(** [Close]: the wrapped writer is closed, then the call waits for
    [Release] and returns the recorded error. *)
Definition Close : M (BlockingWriteCloser W) (option error) :=
  (e <- zoom w set_w io.wc_Close ;;
   record e ;;;
   zoom release set_release sync.Wait ;;;
   b <- get ;;
   ret (err b))%go.

(** [Release]: the wait group is counted down, then the error is
    recorded. *)
Definition Release (e : option error) : M (BlockingWriteCloser W) unit :=
  (release_Done ;;;
   record e)%go.

(** [NewBlockingWriteCloser]: a wait group with [Add(1)] and no error. *)
Definition NewBlockingWriteCloser (x : W) : BlockingWriteCloser W :=
  let wg := fst (sync.Add 1 {| sync.counter := 0 |}) in
  {| w := x; release := wg; err := None |}.

End BlockingWriteCloser.

(** ** The client *)

(** The fields of [s3Client] that [Put] reads, and the methods it calls
    whose source is not given, as functions of their arguments:
    [Transport] is [c.Transport.RoundTrip]. *)
Record s3Client := {
  Host : string;
  AccessKeyID : string;
  SecretAccessKey : string;
  Transport : http.Request -> http.Response + error;
  url2BucketAndObject : string * string;
  objectURL : string -> string -> string;
  newRequest : string -> string -> http.body -> http.Request + error;
  signRequest : http.Request -> string -> http.Request
}.

(** ** The goroutine of [Put] *)

(** What the goroutine and the caller share: the handle, whose [w] is the
    pipe both ends [r] and [w] of [io.Pipe()] refer to, and the requests
    handed to [Transport.RoundTrip]. *)
Record world := {
  blockingWriter : BlockingWriteCloser io.pipe;
  RoundTrips : list http.Request
}.

Definition set_blockingWriter (b : BlockingWriteCloser io.pipe) (wd : world) : world :=
  {| blockingWriter := b; RoundTrips := RoundTrips wd |}.

Definition log_RoundTrip (req : http.Request) (wd : world) : world :=
  {| blockingWriter := blockingWriter wd; RoundTrips := RoundTrips wd ++ [req] |}.

(** The statements of the goroutine that act on the shared state.
    [blockingWriter.Release(err)] is its two statements [Release_Done] and
    [Release_record err]. *)
Inductive instr :=
| r_CloseWithError (e : error)
| r_Close
| Release_Done
| Release_record (e : option error)
| Transport_RoundTrip (req : http.Request).

Definition Release_call (e : option error) : list instr :=
  [Release_Done; Release_record e].

Definition on_pipe {A} (m : M io.pipe A) : M world A :=
  zoom blockingWriter set_blockingWriter (zoom w set_w m).

Definition exec (i : instr) : M world unit :=
  match i with
  | r_CloseWithError e => (on_pipe (io.PipeReader_CloseWithError (Some e)) ;;; ret tt)%go
  | r_Close => (on_pipe io.PipeReader_Close ;;; ret tt)%go
  | Release_Done => zoom blockingWriter set_blockingWriter release_Done
  | Release_record e => zoom blockingWriter set_blockingWriter (record e)
  | Transport_RoundTrip req => modify (log_RoundTrip req)
  end.

(** The goroutine run on its own, from its first statement to its last. *)
Fixpoint run_go (l : list instr) : M world unit :=
  match l with
  | [] => ret tt
  | i :: l' => (exec i ;;; run_go l')%go
  end.

(** The error exit every failure branch takes:
    [r.CloseWithError(err); blockingWriter.Release(err); return]. *)
Definition abort (e : error) : list instr :=
  r_CloseWithError e :: Release_call (Some e).

(** Lines 59 to 69: the Content-MD5 header is set when the digest is not
    blank. *)
Definition set_ContentMD5 (md5HexString : string) (req : http.Request)
  : http.Request + error :=
  if negb (String.eqb (strings.TrimSpace md5HexString) "") then
    match hex.DecodeString md5HexString with
    | inr e => inr (iodine.New (hex_error e))
    | inl md5 =>
        inl (http.set_Header
               (http.Header_Set "Content-MD5"
                  (base64.StdEncoding_EncodeToString md5) (http.Header req))
               req)
    end
  else inl req.

(** Lines 70 to 72: the request is signed when both keys are set. *)
Definition sign (c : s3Client) (req : http.Request) : http.Request :=
  if negb (String.eqb (AccessKeyID c) "") && negb (String.eqb (SecretAccessKey c) "")
  then signRequest c req (Host c)
  else req.

(** The body of the goroutine, lines 42 to 89, as the statements it runs
    on the shared state. *)
Definition Put_go (c : s3Client) (md5HexString : string) (size : Z)
    (bucket object : string) : list instr :=
  if size <? 0 then
    abort (iodine.New (InvalidArgument (errors_New "invalid argument")))
  else
    match newRequest c "PUT" (objectURL c bucket object) http.PipeReader with
    | inr e => abort (iodine.New e)
    | inl req =>
        let req := http.set_Method "PUT" req in
        let req := http.set_ContentLength size req in
        match set_ContentMD5 md5HexString req with
        | inr e => abort e
        | inl req =>
            let req := sign c req in
            Transport_RoundTrip req ::
            match Transport c req with
            | inr e => abort (iodine.New e)
            | inl res =>
                if negb (http.StatusCode res =? http.StatusOK)
                then abort (iodine.New (NewError res))
                else r_Close :: Release_call None
            end
        end
    end.

(** ** [Put] *)

(** What a call of [Put] leaves: [Put_error e] is [return nil, e] with no
    pipe and no goroutine; [Put_started wd go] is [return blockingWriter,
    nil] with the pipe and the handle of [wd] made and the goroutine [go]
    started. *)
Inductive Put_result :=
| Put_error (e : error)
| Put_started (wd : world) (go : list instr).

Section Put.

(** [client.IsValidBucketName], whose source is not given. *)
Variable IsValidBucketName : string -> bool.

Definition Put (c : s3Client) (md5HexString : string) (size : Z) : Put_result :=
  let (bucket, object) := url2BucketAndObject c in
  if negb (IsValidBucketName bucket) || strings.Contains bucket "." then
    Put_error (iodine.New (InvalidBucketName bucket))
  else
    let blockingWriter := NewBlockingWriteCloser io.Pipe in
    Put_started {| blockingWriter := blockingWriter; RoundTrips := [] |}
                (Put_go c md5HexString size bucket object).

End Put.

(** The error [Put] returns, nil when it returns a handle. *)
Definition Put_err (r : Put_result) : option error :=
  match r with
  | Put_error e => Some e
  | Put_started _ _ => None
  end.

(** ** The caller and the goroutine, interleaved *)

(** The caller makes calls on the handle one after the other; each call is
    run statement by statement, the goroutine statement by statement, in
    any order a schedule gives. *)
Inductive call :=
| call_Write (p : list byte)
| call_Close.

Inductive result :=
| Write_returned (n : nat) (e : option error)
| Close_returned (e : option error).

(** Where the caller is inside [Write] or [Close]. *)
Inductive position :=
| Idle
| Write_offered (p : list byte)
| Write_got (n : nat) (e : option error)
| Write_recorded (n : nat)
| Close_got (e : option error)
| Close_recorded
| Close_woken.

Record system := {
  shared : world;
  calls : list call;
  at_pos : position;
  results : list result;
  go : list instr;
  in_RoundTrip : bool;
  crashed : bool
}.

Definition start (wd : world) (l : list instr) (cs : list call) : system :=
  {| shared := wd; calls := cs; at_pos := Idle; results := [];
     go := l; in_RoundTrip := false; crashed := false |}.

Definition caller_at (wd : world) (pos : position) (s : system) : system :=
  {| shared := wd; calls := calls s; at_pos := pos; results := results s;
     go := go s; in_RoundTrip := in_RoundTrip s; crashed := crashed s |}.

Definition caller_returns (r : result) (s : system) : system :=
  {| shared := shared s; calls := tail (calls s); at_pos := Idle;
     results := results s ++ [r];
     go := go s; in_RoundTrip := in_RoundTrip s; crashed := crashed s |}.

Definition go_at (wd : world) (l : list instr) (inside : bool) (dead : bool)
    (s : system) : system :=
  {| shared := wd; calls := calls s; at_pos := at_pos s; results := results s;
     go := l; in_RoundTrip := inside; crashed := dead |}.

Definition with_pipe (p : io.pipe) (wd : world) : world :=
  set_blockingWriter (set_w p (blockingWriter wd)) wd.

(** One statement of the caller. *)
Definition caller_step (s : system) : option system :=
  let wd := shared s in
  let b := blockingWriter wd in
  match at_pos s, calls s with
  | Idle, call_Write p :: _ =>
      match io.write_offer p (w b) with
      | inr (n, e) => Some (caller_at wd (Write_got n e) s)
      | inl p' => Some (caller_at (with_pipe p' wd) (Write_offered p) s)
      end
  | Write_offered p, _ :: _ =>
      match io.write_wait p (w b) with
      | (p', Returned (n, e)) => Some (caller_at (with_pipe p' wd) (Write_got n e) s)
      | _ => None
      end
  | Write_got n e, _ :: _ =>
      Some (caller_at (set_blockingWriter (fst (record e b)) wd) (Write_recorded n) s)
  | Write_recorded n, _ :: _ =>
      Some (caller_returns (Write_returned n (err b)) s)
  | Idle, call_Close :: _ =>
      match io.PipeWriter_Close (w b) with
      | (p', Returned e) => Some (caller_at (with_pipe p' wd) (Close_got e) s)
      | _ => None
      end
  | Close_got e, _ :: _ =>
      Some (caller_at (set_blockingWriter (fst (record e b)) wd) Close_recorded s)
  | Close_recorded, _ :: _ =>
      match sync.Wait (release b) with
      | (_, Returned _) => Some (caller_at wd Close_woken s)
      | _ => None
      end
  | Close_woken, _ :: _ =>
      Some (caller_returns (Close_returned (err b)) s)
  | _, _ => None
  end.

(** One statement of the goroutine; [Transport.RoundTrip] is entered in one
    step and left in another.  The transport may answer at any time, whatever
    it has read of the body: the schedules are all those of every
    transport, which is what a property of every schedule needs; where a
    property says that some schedule exists, the schedule is written out or
    takes no step of the transport. *)
Definition go_step (s : system) : option system :=
  match go s with
  | [] => None
  | Transport_RoundTrip req :: l =>
      if in_RoundTrip s then Some (go_at (shared s) l false false s)
      else Some (go_at (log_RoundTrip req (shared s)) (go s) true false s)
  | i :: l =>
      match exec i (shared s) with
      | (wd, Returned _) => Some (go_at wd l false false s)
      | (wd, Panicked _) => Some (go_at wd [] false true s)
      | (_, Blocked) => None
      end
  end.

(** The transport, inside [RoundTrip], reads up to [S k] bytes of the
    request body. *)
Definition read_step (k : nat) (s : system) : option system :=
  if in_RoundTrip s
  then Some (go_at (with_pipe (io.read (S k) (w (blockingWriter (shared s)))) (shared s))
                   (go s) true false s)
  else None.

Inductive label :=
| caller_runs
| go_runs
| transport_reads (k : nat).

(** A panic ends the program: nothing runs after it. *)
Definition step (l : label) (s : system) : option system :=
  if crashed s then None
  else match l with
       | caller_runs => caller_step s
       | go_runs => go_step s
       | transport_reads k => read_step k s
       end.

Fixpoint run (sched : list label) (s : system) : option system :=
  match sched with
  | [] => Some s
  | l :: sched' =>
      match step l s with
      | Some s' => run sched' s'
      | None => None
      end
  end.

(** Both sides are done: the caller has made all its calls and the
    goroutine has run its last statement. *)
Definition finished (s : system) : bool :=
  match calls s, go s with
  | [], [] => true
  | _, _ => false
  end.

(** [Close] is past its [Wait]: the caller stands after it or a [Close]
    has returned. *)
Definition woken (s : system) : Prop :=
  at_pos s = Close_woken \/ exists e, In (Close_returned e) (results s).

(** ** A client to compute with *)

Definition stub_request (method url : string) (r : http.body) : http.Request :=
  {| http.Method := method; http.URL := url; http.Header := ∅;
     http.ContentLength := 0; http.Body := r |}.

(** A client without keys for the object [object] of the bucket [bucket],
    on a transport that answers every request with [res]. *)
Definition stub_client (res : http.Response + error) : s3Client :=
  {| Host := "localhost"; AccessKeyID := ""; SecretAccessKey := "";
     Transport := fun _ => res;
     url2BucketAndObject := ("bucket", "object");
     objectURL := fun b o => "/" +:+ b +:+ "/" +:+ o;
     newRequest := fun m u r => inl (stub_request m u r);
     signRequest := fun req _ => req |}.

Definition stub_valid (bucket : string) : bool := negb (String.eqb bucket "").

Definition OK : http.Response :=
  {| http.StatusCode := 200; http.ResponseBody := "" |}.

Definition Forbidden : http.Response :=
  {| http.StatusCode := 403; http.ResponseBody := "Forbidden" |}.

(** [Put] followed by the caller's calls under a schedule. *)
Definition upload (c : s3Client) (md5HexString : string) (size : Z)
    (cs : list call) (sched : list label) : option system :=
  match Put stub_valid c md5HexString size with
  | Put_error _ => None
  | Put_started wd l => run sched (start wd l cs)
  end.

Definition hello : list byte := bytes_of_string "hello".

(** The handle as [Put] returns it and the handle after the goroutine has
    run all its statements. *)
Definition fresh_world : world :=
  {| blockingWriter := NewBlockingWriteCloser io.Pipe; RoundTrips := [] |}.

Definition after_go (l : list instr) : world := fst (run_go l fresh_world).





(** The ways the goroutine fails, each with the error it makes: a negative
    size, a request that cannot be built, a digest that does not decode, an
    error of the transport, a status that is not OK. *)
Inductive failure (c : s3Client) (md5HexString : string) (size : Z)
    (bucket object : string) : error -> Prop :=
| negative_size :
    size < 0 ->
    failure c md5HexString size bucket object
      (iodine.New (InvalidArgument (errors_New "invalid argument")))
| request_not_built e :
    0 <= size ->
    newRequest c "PUT" (objectURL c bucket object) http.PipeReader = inr e ->
    failure c md5HexString size bucket object (iodine.New e)
| malformed_digest req e :
    0 <= size ->
    newRequest c "PUT" (objectURL c bucket object) http.PipeReader = inl req ->
    strings.TrimSpace md5HexString <> "" ->
    hex.DecodeString md5HexString = inr e ->
    failure c md5HexString size bucket object (iodine.New (hex_error e))
| transport_error req req' e :
    0 <= size ->
    newRequest c "PUT" (objectURL c bucket object) http.PipeReader = inl req ->
    set_ContentMD5 md5HexString
      (http.set_ContentLength size (http.set_Method "PUT" req)) = inl req' ->
    Transport c (sign c req') = inr e ->
    failure c md5HexString size bucket object (iodine.New e)
| status_not_OK req req' res :
    0 <= size ->
    newRequest c "PUT" (objectURL c bucket object) http.PipeReader = inl req ->
    set_ContentMD5 md5HexString
      (http.set_ContentLength size (http.set_Method "PUT" req)) = inl req' ->
    Transport c (sign c req') = inl res ->
    http.StatusCode res <> http.StatusOK ->
    failure c md5HexString size bucket object (iodine.New (NewError res)).

(** The statements that are a call of [Transport.RoundTrip]. *)
Definition is_RoundTrip (i : instr) : bool :=
  match i with
  | Transport_RoundTrip _ => true
  | _ => false
  end.

Definition is_Release_Done (i : instr) : bool :=
  match i with
  | Release_Done => true
  | _ => false
  end.

Definition is_Release_record_nil (i : instr) : bool :=
  match i with
  | Release_record None => true
  | _ => false
  end.

(** ** What every schedule keeps *)

Definition count_Done (l : list instr) : Z :=
  Z.of_nat (length (filter is_Release_Done l)).

(** The statements that close the read end of the pipe. *)
Definition is_close (i : instr) : bool :=
  match i with
  | r_Close | r_CloseWithError _ => true
  | _ => false
  end.

Definition head_is_RoundTrip (l : list instr) : bool :=
  match l with
  | Transport_RoundTrip _ :: _ => true
  | _ => false
  end.

(** The state of an upload of [n] calls, as every schedule keeps it: no
    panic; the wait group counts the [Done] still to run; the read end is
    closed or the goroutine has yet to close it; the caller is inside a call
    only while it has one to make; every call has returned or is still to
    return; at most one request has gone to the transport, and the
    goroutine is inside [RoundTrip] only at its call. *)
Definition Inv (n : nat) (s : system) : Prop :=
  crashed s = false
  /\ sync.counter (release (blockingWriter (shared s))) = count_Done (go s)
  /\ (io.rerr (w (blockingWriter (shared s))) <> None
      \/ existsb is_close (go s) = true)
  /\ (at_pos s <> Idle -> calls s <> [])
  /\ (length (results s) + length (calls s) = n)%nat
  /\ (length (RoundTrips (shared s)) + length (filter is_RoundTrip (go s))
      <= 1 + Nat.b2n (in_RoundTrip s))%nat
  /\ (in_RoundTrip s = true -> head_is_RoundTrip (go s) = true).

(** How far the goroutine and the caller are from their ends, in
    statements. *)
Definition go_measure (s : system) : nat :=
  2 * length (go s) - Nat.b2n (in_RoundTrip s).

Definition position_depth (pos : position) : nat :=
  match pos with
  | Idle => 0
  | Write_offered _ => 1
  | Write_got _ _ => 2
  | Write_recorded _ => 3
  | Close_got _ => 1
  | Close_recorded => 2
  | Close_woken => 3
  end.

Definition caller_measure (s : system) : nat :=
  4 * length (calls s) - position_depth (at_pos s).

(** ** The goroutine on a failure path, under a schedule *)

(** Before the error exit the read end is open and the goroutine has its
    error exit for [e] still to run, after at most the call of the
    transport; after [r.CloseWithError(e)] the read end is closed with [e],
    the goroutine is outside [RoundTrip] and only [Release(e)], or the rest
    of it, is left. *)
Definition before_abort (e : error) (s : system) : Prop :=
  io.rerr (w (blockingWriter (shared s))) = None
  /\ exists pre, go s = pre ++ abort e /\ forallb is_RoundTrip pre = true.

Definition after_abort (e : error) (s : system) : Prop :=
  io.rerr (w (blockingWriter (shared s))) = Some e
  /\ in_RoundTrip s = false
  /\ (go s = Release_call (Some e) \/ go s = [Release_record (Some e)] \/ go s = []).

Definition failing (e : error) (s : system) : Prop :=
  before_abort e s \/ after_abort e s.

(** A [Write] of [p] that the caller starts on results [R], from its call
    to its return of no byte and the error [e]. *)
Definition writing (e : error) (R : list result) (p : list byte) (s : system) : Prop :=
  (results s = R /\ at_pos s = Idle
   /\ (exists rest, calls s = call_Write p :: rest)
   /\ io.werr (w (blockingWriter (shared s))) = None)
  \/ (results s = R /\ at_pos s = Write_offered p /\ calls s <> []
      /\ io.data (w (blockingWriter (shared s))) = Some p)
  \/ (results s = R /\ at_pos s = Write_got 0 (Some e) /\ calls s <> [])
  \/ (results s = R /\ at_pos s = Write_recorded 0 /\ calls s <> []
      /\ err (blockingWriter (shared s)) = Some e)
  \/ (exists more, results s = R ++ Write_returned 0 (Some e) :: more).

(** ** Calls that record no new error *)



(** A writer to compute with: it answers each write with the next result of
    a script, and a write past the script's end succeeds; its close
    succeeds. *)
Definition scripted_Write (p : list byte)
  : M (list (nat * option error)) (nat * option error) :=
  fun script =>
    match script with
    | [] => ([], Returned (length p, None))
    | r :: script' => (script', Returned r)
    end.

#[global] Instance scripted : io.WriteCloser (list (nat * option error)) := {
  io.wc_Write := scripted_Write;
  io.wc_Close := fun script => (script, Returned None)
}.

(** ** Package [fs]: the filesystem client *)

Module fs.

(** *** What the client uses of [os], [path/filepath] and [io] *)

(** An error of the operating system, [*os.PathError]: the operation, the
    path and the error number. *)
Inductive os_error := PathError (Op Path : string) (Err : Z).

Definition ENOENT : Z := 2.
Definition EACCES : Z := 13.
Definition EPERM : Z := 1.

(** [os.IsNotExist] and [os.IsPermission]. *)
Definition IsNotExist (e : os_error) : bool :=
  match e with PathError _ _ n => n =? ENOENT end.

Definition IsPermission (e : os_error) : bool :=
  match e with PathError _ _ n => (n =? EACCES) || (n =? EPERM) end.

(** [os.FileMode]: the permission bits and, at bit 31, the directory
    flag. *)
Definition ModeDir : Z := Z.shiftl 1 31.

Definition IsDir (m : Z) : bool := negb (Z.land m ModeDir =? 0).

(** [os.FileInfo], with the time as a number. *)
Record FileInfo := {
  fi_Name : string;
  fi_Size : Z;
  fi_ModTime : Z;
  fi_Mode : Z
}.

(** An open file, [*os.File], known by the path it was opened at. *)
Inductive File := file_at (name : string).

(** A 64-bit signed integer kept in range by wrapping around. *)
Definition wrap64 (z : Z) : Z := (z + 2 ^ 63) mod 2 ^ 64 - 2 ^ 63.

(** *** The errors of the client *)

Inductive error :=
| FileNotFound (path : string)
| FileISDir (path : string)
| InvalidRange (Offset : Z)
| errors_New (text : string)
| os_err (e : os_error)
| io_err (text : string)
| iodine_Error (e : error).

(** [iodine.New(err, nil)] for an [err] that is not nil. *)
Definition iodine_New (e : error) : error := iodine_Error e.

(** *** [client.Item] *)

(** The fields of [client.Item] the client sets; a new item has them all
    zero. *)
Record Item := {
  Name : string;
  Time : Z;
  Size : Z;
  FileType : Z
}.

Record ItemOnChannel := {
  Item_ : option Item;
  Err_ : option error
}.

(** One call of the walk function by [filepath.Walk]: with the file's
    information and no error, or with an error and whatever information
    there is. *)
Inductive visit :=
| visit_ok (fp : string) (fi : FileInfo)
| visit_err (fp : string) (fi : option FileInfo) (err : os_error).

(** The calls the client makes on the system, in the order it makes
    them. *)
Inductive oscall :=
| call_Stat (name : string)
| call_Open (name : string)
| call_MkdirAll (name : string) (perm : Z)
| call_Chmod (name : string) (perm : Z)
| call_CopyN (n : Z).

(** The system the client runs on: what each call answers.  [Walk] gives
    the visits [filepath.Walk] makes of a tree as long as the walk function
    returns nil; [CopyN_nil n] is [io.CopyN(ioutil.Discard, nil, n)], with
    the text of its error when it returns one. *)
Record OS := {
  Clean : string -> string;
  Stat : string -> FileInfo + os_error;
  Open : string -> File + os_error;
  MkdirAll : string -> Z -> option os_error;
  Chmod : string -> Z -> option os_error;
  Walk : string -> list visit;
  CopyN_nil : Z -> completion (option string)
}.

(** *** The client *)

Record fsClient := { path : string }.

(** [New]: no client for a blank path. *)
Definition New (p : string) : option fsClient :=
  if String.eqb (strings.TrimSpace p) "" then None else Some {| path := p |}.

Section Client.

Variable os : OS.

(** [fsStat]. *)
Definition fsStat (f : fsClient) : list oscall * (FileInfo + error) :=
  let name := Clean os (path f) in
  ([call_Stat name],
   match Stat os name with
   | inr e =>
       if IsNotExist e then inr (iodine_New (FileNotFound (path f)))
       else inr (iodine_New (os_err e))
   | inl st => inl st
   end).

(** [getFSMetadata]: name, size and time are taken from the file's
    information; the type is left as [new(client.Item)] made it. *)
Definition getFSMetadata (f : fsClient) : list oscall * (Item + error) :=
  let (calls, r) := fsStat f in
  (calls,
   match r with
   | inr e => inr (iodine_New e)
   | inl st =>
       inl {| Name := fi_Name st; Time := fi_ModTime st; Size := fi_Size st;
              FileType := 0 |}
   end).

(** [Stat]. *)
Definition Stat_ (f : fsClient) : list oscall * (Item + error) := getFSMetadata f.

(** [Get]: the body, the size and the md5 sum, or the error. *)
Definition Get (f : fsClient) : list oscall * (File * Z * string + error) :=
  let (calls, r) := getFSMetadata f in
  match r with
  | inr e => (calls, inr (iodine_New e))
  | inl item =>
      if IsDir (FileType item) then (calls, inr (iodine_New (FileISDir (path f))))
      else
        (calls ++ [call_Open (path f)],
         match Open os (path f) with
         | inr e => inr (iodine_New (os_err e))
         | inl body => inl (body, Size item, "")
         end)
  end.

(** [GetPartial]: [body] is the named result, which no statement assigns
    before [io.CopyN] reads from it and before it is returned. *)
Definition GetPartial (f : fsClient) (offset length : Z)
  : list oscall * completion (option File * Z * string + error) :=
  if offset <? 0 then ([], Returned (inr (iodine_New (InvalidRange offset))))
  else
    let (calls, r) := getFSMetadata f in
    match r with
    | inr e => (calls, Returned (inr (iodine_New e)))
    | inl item =>
        if IsDir (FileType item)
        then (calls, Returned (inr (iodine_New (FileISDir (path f)))))
        else if (offset >? Size item)
                || (wrap64 (wrap64 (offset + length) - 1) >? Size item)
        then (calls, Returned (inr (iodine_New (InvalidRange offset))))
        else
          let body : option File := None in
          (calls ++ [call_CopyN offset],
           match CopyN_nil os offset with
           | Returned (Some t) => Returned (inr (iodine_New (io_err t)))
           | Returned None => Returned (inl (body, length, ""))
           | Blocked => Blocked
           | Panicked msg => Panicked msg
           end)
    end.

(** [visitFS], the walk function of [listInGoroutine]: what it sends on the
    channel and what it returns. *)
Definition visitFS (v : visit) : option ItemOnChannel * option os_error :=
  match v with
  | visit_err _ _ err =>
      if IsPermission err then (None, None) else (None, Some err)
  | visit_ok fp fi =>
      (Some {| Item_ := Some {| Name := fp; Time := fi_ModTime fi;
                                Size := fi_Size fi; FileType := fi_Mode fi |};
               Err_ := None |},
       None)
  end.

(** [filepath.Walk] with [visitFS]: the visits are made in order up to the
    first one for which the walk function returns an error, which the walk
    returns. *)
Fixpoint walk (vs : list visit) : list ItemOnChannel * option os_error :=
  match vs with
  | [] => ([], None)
  | v :: vs' =>
      match visitFS v with
      | (sent, Some e) => (option_list sent, Some e)
      | (sent, None) =>
          let (out, r) := walk vs' in (option_list sent ++ out, r)
      end
  end.

(** [listInGoroutine]: what is sent on the channel before it is closed. *)
Definition listInGoroutine (f : fsClient) : list ItemOnChannel :=
  let (out, r) := walk (Walk os (path f)) in
  out ++ match r with
         | Some e => [{| Item_ := None; Err_ := Some (iodine_New (os_err e)) |}]
         | None => []
         end.

(** [List]: what the channel it returns delivers. *)
Definition List_ (f : fsClient) : list ItemOnChannel := listInGoroutine f.

(** [isValidBucketACL]. *)
Definition isValidBucketACL (acl : string) : bool :=
  if String.eqb acl "private" then true
  else if String.eqb acl "public-read" then true
  else if String.eqb acl "public-read-write" then true
  else if String.eqb acl "" then true
  else false.

(** [aclToPerm]; the modes are octal 0700, 0500 and 0777. *)
Definition aclToPerm (acl : string) : Z :=
  if String.eqb acl "private" then 448
  else if String.eqb acl "public-read" then 320
  else if String.eqb acl "public-read-write" then 511
  else 448.

(** [PutBucket]. *)
Definition PutBucket (f : fsClient) (acl : string) : list oscall * option error :=
  if negb (isValidBucketACL acl)
  then ([], Some (iodine_New (errors_New "invalid acl")))
  else
    match MkdirAll os (path f) (aclToPerm acl) with
    | Some e => ([call_MkdirAll (path f) (aclToPerm acl)], Some (iodine_New (os_err e)))
    | None =>
        ([call_MkdirAll (path f) (aclToPerm acl); call_Chmod (path f) (aclToPerm acl)],
         match Chmod os (path f) (aclToPerm acl) with
         | Some e => Some (iodine_New (os_err e))
         | None => None
         end)
    end.

End Client.

(** The error under its wrappings by [iodine.New]. *)
Fixpoint cause (e : error) : error :=
  match e with
  | iodine_Error e' => cause e'
  | _ => e
  end.

Definition is_error_entry (i : ItemOnChannel) : bool :=
  match Err_ i with Some _ => true | None => false end.

Definition is_fatal (v : visit) : bool :=
  match v with
  | visit_err _ _ err => negb (IsPermission err)
  | visit_ok _ _ => false
  end.

Definition is_call_Open (c : oscall) : bool :=
  match c with call_Open _ => true | _ => false end.

Definition is_call_CopyN (c : oscall) : bool :=
  match c with call_CopyN _ => true | _ => false end.

(** What the visits of a list send on the channel when none of them stops
    the walk. *)
Definition entries (vs : list visit) : list ItemOnChannel :=
  flat_map (fun v => option_list (fst (visitFS v))) vs.

Definition error_entry (e : os_error) : ItemOnChannel :=
  {| Item_ := None; Err_ := Some (iodine_New (os_err e)) |}.

(** A system to compute with: one file [/tmp/a] of 10 bytes, and nothing
    else. *)
Definition stub_os : OS :=
  {| Clean := fun p => p;
     Stat := fun p =>
       if String.eqb p "/tmp/a"
       then inl {| fi_Name := "a"; fi_Size := 10; fi_ModTime := 0; fi_Mode := 420 |}
       else inr (PathError "stat" p ENOENT);
     Open := fun p =>
       if String.eqb p "/tmp/a" then inl (file_at p)
       else inr (PathError "open" p ENOENT);
     MkdirAll := fun _ _ => None;
     Chmod := fun _ _ => None;
     Walk := fun p =>
       [visit_ok "/tmp/a"
          {| fi_Name := "a"; fi_Size := 10; fi_ModTime := 0; fi_Mode := 420 |};
        visit_err "/tmp/b" None (PathError "lstat" "/tmp/b" EACCES);
        visit_err "/tmp/c" None (PathError "lstat" "/tmp/c" 5);
        visit_ok "/tmp/d"
          {| fi_Name := "d"; fi_Size := 1; fi_ModTime := 0; fi_Mode := 420 |}];
     CopyN_nil := fun n =>
       if n <=? 0 then Returned None
       else Panicked "invalid memory address or nil pointer dereference" |}.

End fs.

(** * Properties *)

Example TrimSpace_three_spaces : strings.TrimSpace "   " = "".
Proof. reflexivity. Qed.

Example TrimSpace_inner : strings.TrimSpace "  ab cd  " = "ab cd".
Proof. reflexivity. Qed.

Example DecodeString_md5_empty :
  hex.DecodeString "d41d8cd98f00b204e9800998ecf8427e"
  = inl (map byte_of_N [212;29;140;217;143;0;178;4;233;128;9;152;236;248;66;126]%N).
Proof. reflexivity. Qed.

Example base64_md5_empty :
  match hex.DecodeString "d41d8cd98f00b204e9800998ecf8427e" with
  | inl md5 => base64.StdEncoding_EncodeToString md5 = "1B2M2Y8AsgTpgAmY7PhCfg=="
  | inr _ => False
  end.
Proof. reflexivity. Qed.

Example base64_md5_hello :
  match hex.DecodeString "5D41402ABC4B2A76B9719D911017C592" with
  | inl md5 => base64.StdEncoding_EncodeToString md5 = "XUFAKrxLKna5cZ2REBfFkg=="
  | inr _ => False
  end.
Proof. reflexivity. Qed.

(** ** The handle *)

Ltac unfold_M :=
  unfold Write, Close, Release, release_Done, record, bind, zoom, modify, get, ret,
    sync.Done, sync.Add, sync.Wait in *.

Section Handle.

Context {W : Type} `{io.WriteCloser W}.

Implicit Type b : BlockingWriteCloser W.







(** A handle whose wait group is already at zero: [Release] panics in
    [Done] and the recorded error stays as it was. *)
Lemma Release_released_panics e b :
  sync.counter (release b) <= 0 ->
  snd (Release e b) = Panicked "sync: negative WaitGroup counter"
  /\ err (fst (Release e b)) = err b.
Proof.
  intros Hc. unfold_M. simpl.
  destruct (sync.counter (release b) + -1 <? 0) eqn:E; [split; reflexivity|].
  apply Z.ltb_ge in E. lia.
Qed.

Lemma Release_new_returns e (x : W) :
  Release e (NewBlockingWriteCloser x)
  = ({| w := x; release := {| sync.counter := 0 |}; err := e |}, Returned tt).
Proof. unfold_M. destruct e; reflexivity. Qed.

End Handle.



(** ** The goroutine *)

Lemma size_negative size : size < 0 -> (size <? 0) = true.
Proof. apply Z.ltb_lt. Qed.

Lemma size_not_negative size : 0 <= size -> (size <? 0) = false.
Proof. intros. apply Z.ltb_ge. lia. Qed.

Lemma status_not_OK_test (res : http.Response) :
  http.StatusCode res <> http.StatusOK ->
  negb (http.StatusCode res =? http.StatusOK) = true.
Proof. intros Hs. apply negb_true_iff, Z.eqb_neq, Hs. Qed.

Lemma not_blank_test s :
  strings.TrimSpace s <> "" -> negb (String.eqb (strings.TrimSpace s) "") = true.
Proof. intros Hs. apply negb_true_iff, String.eqb_neq, Hs. Qed.

(** A failure makes the goroutine take the error exit with its error, at
    once or right after the call of the transport. *)
Lemma failure_Put_go c md5HexString size bucket object e :
  failure c md5HexString size bucket object e ->
  Put_go c md5HexString size bucket object = abort e
  \/ exists req,
       Put_go c md5HexString size bucket object = Transport_RoundTrip req :: abort e.
Proof.
  intros Hf. unfold Put_go.
  destruct Hf as [Hs | e Hs Hreq | req e Hs Hreq Hb Hd
                  | req req' e Hs Hreq Hmd5 Ht | req req' res Hs Hreq Hmd5 Ht Hst].
  - rewrite (size_negative _ Hs). now left.
  - rewrite (size_not_negative _ Hs), Hreq. now left.
  - rewrite (size_not_negative _ Hs), Hreq. unfold set_ContentMD5.
    rewrite (not_blank_test _ Hb), Hd. now left.
  - rewrite (size_not_negative _ Hs), Hreq, Hmd5, Ht. right. eauto.
  - rewrite (size_not_negative _ Hs), Hreq, Hmd5, Ht, (status_not_OK_test _ Hst).
    right. eauto.
Qed.

(** Every run of the goroutine is one of the five failures or ends on the
    success exit after an answer with status OK. *)
Lemma Put_go_total c md5HexString size bucket object :
  (exists e, failure c md5HexString size bucket object e)
  \/ exists req req' res,
       0 <= size
       /\ newRequest c "PUT" (objectURL c bucket object) http.PipeReader = inl req
       /\ set_ContentMD5 md5HexString
            (http.set_ContentLength size (http.set_Method "PUT" req)) = inl req'
       /\ Transport c (sign c req') = inl res
       /\ http.StatusCode res = http.StatusOK
       /\ Put_go c md5HexString size bucket object
          = Transport_RoundTrip (sign c req') :: r_Close :: Release_call None.
Proof.
  destruct (Z.ltb_spec size 0) as [Hs | Hs].
  { left. eexists. now apply negative_size. }
  destruct (newRequest c "PUT" (objectURL c bucket object) http.PipeReader)
    as [req | e] eqn:Hreq.
  2: { left. eexists. eapply request_not_built; eauto. }
  destruct (set_ContentMD5 md5HexString
              (http.set_ContentLength size (http.set_Method "PUT" req)))
    as [req' | e] eqn:Hmd5.
  2: { left. unfold set_ContentMD5 in Hmd5.
       destruct (String.eqb_spec (strings.TrimSpace md5HexString) "") as [Hb | Hb];
         simpl in Hmd5; [discriminate|].
       destruct (hex.DecodeString md5HexString) as [bs | e'] eqn:Hd; [discriminate|].
       eexists. eapply malformed_digest; eauto. }
  destruct (Transport c (sign c req')) as [res | e] eqn:Ht.
  2: { left. eexists. eapply transport_error; eauto. }
  destruct (Z.eq_dec (http.StatusCode res) http.StatusOK) as [Hst | Hst].
  2: { left. eexists. eapply status_not_OK; eauto. }
  right. exists req, req', res. repeat split; auto.
  unfold Put_go. rewrite (size_not_negative _ Hs), Hreq, Hmd5, Ht, Hst. reflexivity.
Qed.

(** The goroutine run alone from the state [Put] leaves: the error exit. *)
Lemma run_go_abort e pre :
  forallb is_RoundTrip pre = true ->
  exists reqs,
    run_go (pre ++ abort e) fresh_world =
    ({| blockingWriter :=
          {| w := {| io.data := None; io.rerr := Some e; io.werr := None |};
             release := {| sync.counter := 0 |};
             err := Some e |};
        RoundTrips := reqs |}, Returned tt)
    /\ length reqs = length pre.
Proof.
  assert (Hgen : forall pre wd, forallb is_RoundTrip pre = true ->
            exists reqs,
              run_go (pre ++ abort e) wd
              = run_go (abort e) {| blockingWriter := blockingWriter wd;
                                    RoundTrips := RoundTrips wd ++ reqs |}
              /\ length reqs = length pre).
  { clear pre. induction pre as [|i pre IH]; intros wd Hpre.
    - exists []. rewrite app_nil_r. destruct wd; auto.
    - simpl in Hpre. apply andb_true_iff in Hpre as [Hi Hpre].
      destruct i; try discriminate.
      destruct (IH (log_RoundTrip req wd) Hpre) as (reqs & Hrun & Hlen).
      exists (req :: reqs). split; [|simpl; now rewrite Hlen].
      change (run_go ((Transport_RoundTrip req :: pre) ++ abort e) wd)
        with (run_go (pre ++ abort e) (log_RoundTrip req wd)).
      rewrite Hrun. unfold log_RoundTrip. simpl. now rewrite <- app_assoc. }
  intros Hpre. destruct (Hgen pre fresh_world Hpre) as (reqs & Hrun & Hlen).
  exists reqs. now rewrite Hrun.
Qed.

(** The goroutine run alone: the success exit. *)
Lemma run_go_success req :
  run_go (Transport_RoundTrip req :: r_Close :: Release_call None) fresh_world =
  ({| blockingWriter :=
        {| w := {| io.data := None; io.rerr := Some ErrClosedPipe; io.werr := None |};
           release := {| sync.counter := 0 |};
           err := None |};
      RoundTrips := [req] |}, Returned tt).
Proof. reflexivity. Qed.

(** [Write] on a pipe whose read end is closed: nothing is accepted; the
    error is the one the read end was closed with while the write end is
    open, and [ErrClosedPipe] once the caller has closed it.  The call
    leaves both ends as they were. *)
Lemma Write_closed_pipe (b : BlockingWriteCloser io.pipe) (e : error) (p : list byte) :
  io.rerr (w b) = Some e ->
  let e' := match io.werr (w b) with Some _ => ErrClosedPipe | None => e end in
  snd (Write p b) = Returned (0%nat, Some e')
  /\ err (fst (Write p b)) = Some e'
  /\ io.rerr (w (fst (Write p b))) = Some e
  /\ io.werr (w (fst (Write p b))) = io.werr (w b)
  /\ release (fst (Write p b)) = release b.
Proof.
  intros Hr. unfold_M. simpl.
  unfold io.PipeWriter_Write, io.write_offer, io.write_wait.
  destruct (io.werr (w b)) eqn:Hw; simpl.
  - rewrite Hw. auto.
  - rewrite Hr. simpl. rewrite Nat.sub_diag. auto.
Qed.

(** ** Failures of the goroutine reach the caller *)

(** On each of the five failure paths (negative size, request not
    built, malformed digest, transport error, status not OK) the goroutine
    ends with [r.CloseWithError(e)] followed by [Release(e)] for the same
    error [e]; it never records nil through [Release], it counts the wait
    group down exactly once and it runs to its end.  Afterwards the read
    end of the pipe is closed with [e], the handle holds [e], the wait
    group is at zero, [Close] returns [e] and every [Write] fails with
    [e]. *)
Theorem failure_closes_and_releases c md5HexString size bucket object e :
  failure c md5HexString size bucket object e ->
  let l := Put_go c md5HexString size bucket object in
  let b := blockingWriter (after_go l) in
  (exists pre,
      l = pre ++ [r_CloseWithError e; Release_Done; Release_record (Some e)]
      /\ forallb is_RoundTrip pre = true)
  /\ filter is_Release_record_nil l = []
  /\ length (filter is_Release_Done l) = 1%nat
  /\ snd (run_go l fresh_world) = Returned tt
  /\ io.rerr (w b) = Some e
  /\ err b = Some e
  /\ sync.counter (release b) = 0
  /\ snd (Close b) = Returned (Some e)
  /\ forall p, snd (Write p b) = Returned (0%nat, Some e).
Proof.
  intros Hf l b.
  assert (Hl : exists pre, l = pre ++ abort e /\ forallb is_RoundTrip pre = true
                           /\ filter is_Release_record_nil pre = []
                           /\ filter is_Release_Done pre = []).
  { destruct (failure_Put_go _ _ _ _ _ _ Hf) as [Hl | [req Hl]].
    - exists []. auto.
    - exists [Transport_RoundTrip req]. auto. }
  destruct Hl as (pre & Hl & Hpre & Hnil & Hdone).
  destruct (run_go_abort e pre Hpre) as (reqs & Hrun & _).
  assert (Hb : b = {| w := {| io.data := None; io.rerr := Some e; io.werr := None |};
                      release := {| sync.counter := 0 |}; err := Some e |}).
  { unfold b, after_go. now rewrite Hl, Hrun. }
  split; [exists pre; auto|].
  split; [rewrite Hl, filter_app, Hnil; reflexivity|].
  split; [rewrite Hl, filter_app, Hdone; reflexivity|].
  split; [now rewrite Hl, Hrun|].
  rewrite Hb. repeat split.
  intros p.
  exact (proj1 (Write_closed_pipe
                  {| w := {| io.data := None; io.rerr := Some e; io.werr := None |};
                     release := {| sync.counter := 0 |}; err := Some e |}
                  e p eq_refl)).
Qed.

Lemma failure_closes_and_releases_witness :
  failure (stub_client (inl Forbidden)) "" 5 "bucket" "object"
    (iodine.New (NewError Forbidden))
  /\ snd (Close (blockingWriter
                   (after_go (Put_go (stub_client (inl Forbidden)) "" 5 "bucket" "object"))))
     = Returned (Some (iodine.New (NewError Forbidden))).
Proof.
  assert (Hf : failure (stub_client (inl Forbidden)) "" 5 "bucket" "object"
                 (iodine.New (NewError Forbidden))).
  { eapply status_not_OK;
      [lia | reflexivity | reflexivity | reflexivity | unfold http.StatusOK; simpl; lia]. }
  split; [exact Hf|].
  apply (failure_closes_and_releases _ _ _ _ _ _ Hf).
Defined.

(** ** The status of the answer *)

(** When the transport answers, status 200 alone is success: the
    goroutine closes the read end without an error and releases with nil,
    and [Close] returns nil.  Every other status makes it close the read
    end and release with the error [NewError] makes of the response, and
    [Close] returns that error. *)
Theorem status_decides_outcome c md5HexString size bucket object req req' res :
  0 <= size ->
  newRequest c "PUT" (objectURL c bucket object) http.PipeReader = inl req ->
  set_ContentMD5 md5HexString
    (http.set_ContentLength size (http.set_Method "PUT" req)) = inl req' ->
  Transport c (sign c req') = inl res ->
  let l := Put_go c md5HexString size bucket object in
  let b := blockingWriter (after_go l) in
  (http.StatusCode res = 200 ->
     l = [Transport_RoundTrip (sign c req'); r_Close; Release_Done; Release_record None]
     /\ io.rerr (w b) = Some ErrClosedPipe
     /\ err b = None
     /\ snd (Close b) = Returned None)
  /\ (http.StatusCode res <> 200 ->
     l = [Transport_RoundTrip (sign c req');
          r_CloseWithError (iodine.New (NewError res));
          Release_Done; Release_record (Some (iodine.New (NewError res)))]
     /\ io.rerr (w b) = Some (iodine.New (NewError res))
     /\ err b = Some (iodine.New (NewError res))
     /\ snd (Close b) = Returned (Some (iodine.New (NewError res)))).
Proof.
  intros Hs Hreq Hmd5 Ht l b.
  assert (Hl : l = Transport_RoundTrip (sign c req') ::
                   (if negb (http.StatusCode res =? http.StatusOK)
                    then abort (iodine.New (NewError res))
                    else r_Close :: Release_call None)).
  { unfold l, Put_go. now rewrite (size_not_negative _ Hs), Hreq, Hmd5, Ht. }
  split; intros Hst.
  - assert (Hl' : l = [Transport_RoundTrip (sign c req'); r_Close;
                       Release_Done; Release_record None]).
    { rewrite Hl. unfold http.StatusOK. rewrite Hst. reflexivity. }
    unfold b. rewrite Hl'. repeat split.
  - assert (Hl' : l = [Transport_RoundTrip (sign c req');
                       r_CloseWithError (iodine.New (NewError res));
                       Release_Done; Release_record (Some (iodine.New (NewError res)))]).
    { rewrite Hl, (status_not_OK_test res Hst). reflexivity. }
    unfold b. rewrite Hl'. repeat split.
Qed.

Lemma status_decides_outcome_witness :
  snd (Close (blockingWriter
                (after_go (Put_go (stub_client (inl Forbidden)) "" 5 "bucket" "object"))))
  = Returned (Some (iodine_Error (s3_Error
       {| http.StatusCode := 403; http.ResponseBody := "Forbidden" |}))).
Proof.
  refine (let H := status_decides_outcome (stub_client (inl Forbidden)) "" 5
                     "bucket" "object" _ _ Forbidden _ eq_refl eq_refl eq_refl in _).
  apply H. simpl. lia.
  Unshelve. lia.
Defined.

(** ** Releasing once *)

(** C7. Whatever path the goroutine takes it counts the wait group down
    exactly once, as the first statement of the [Release] it ends with.  On
    a handle made by [NewBlockingWriteCloser] the first [Release] returns
    and a second one panics in [Done], before its assignment: the recorded
    error is the one the first call left. *)
Theorem Release_exactly_once :
  (forall c md5HexString size bucket object,
      length (filter is_Release_Done (Put_go c md5HexString size bucket object)) = 1%nat
      /\ exists pre e,
           Put_go c md5HexString size bucket object = pre ++ Release_call e
           /\ filter is_Release_Done pre = [])
  /\ (forall (W : Type) (H : io.WriteCloser W) (x : W) (e1 e2 : option error),
        let first := Release e1 (NewBlockingWriteCloser x) in
        let second := Release e2 (fst first) in
        snd first = Returned tt
        /\ snd second = Panicked "sync: negative WaitGroup counter"
        /\ err (fst second) = err (fst first)
        /\ err (fst first) = e1).
Proof.
  split.
  - intros c md5HexString size bucket object.
    assert (Hl : exists pre e,
               Put_go c md5HexString size bucket object = pre ++ Release_call e
               /\ filter is_Release_Done pre = []).
    { destruct (Put_go_total c md5HexString size bucket object)
        as [[e Hf] | (req & req' & res & _ & _ & _ & _ & _ & Hl)].
      - destruct (failure_Put_go _ _ _ _ _ _ Hf) as [Hl | [req Hl]]; rewrite Hl.
        + exists [r_CloseWithError e], (Some e). auto.
        + exists [Transport_RoundTrip req; r_CloseWithError e], (Some e). auto.
      - rewrite Hl. exists [Transport_RoundTrip (sign c req'); r_Close], None. auto. }
    split; [|exact Hl].
    destruct Hl as (pre & e & -> & Hpre). now rewrite filter_app, Hpre.
  - intros W H x e1 e2 first second. unfold second, first.
    rewrite Release_new_returns. simpl.
    destruct (Release_released_panics e2
                {| w := x; release := {| sync.counter := 0 |}; err := e1 |})
      as [Hp He]; [simpl; lia|].
    auto.
Qed.

(** ** Reading the outcome again *)



(** ** The digest *)

Lemma space_prefix_rune r l :
  strings.space_rune r ->
  strings.space_prefix (r ++ l) = length r /\ (0 < length r)%nat.
Proof.
  intros Hr. destruct Hr as [c Hc | c Hc | | c Hc | | ]; simpl; try (split; [reflexivity|lia]).
  - assert (Hc' : (c = 9 \/ c = 10 \/ c = 11 \/ c = 12 \/ c = 13 \/ c = 32)%N) by lia.
    destruct Hc' as [-> | [-> | [-> | [-> | [-> | ->]]]]]; split; (reflexivity || lia).
  - destruct Hc as [-> | ->]; split; (reflexivity || lia).
  - split; [|lia].
    destruct Hc as [[H1 H2] | [-> | [-> | ->]]]; try reflexivity.
    apply N.leb_le in H1, H2. now rewrite H1, H2.
Qed.

Lemma strip_blank l :
  strings.blank l ->
  forall fuel, (length l <= fuel)%nat -> strings.strip strings.space_prefix fuel l = [].
Proof.
  induction 1 as [|r l Hr Hl IH]; intros fuel Hfuel.
  - destruct fuel; reflexivity.
  - destruct (space_prefix_rune r l Hr) as [Hw Hpos].
    rewrite length_app in Hfuel.
    destruct fuel as [|fuel]; [lia|]. simpl. rewrite Hw.
    destruct (length r) as [|k] eqn:Hk; [lia|].
    rewrite <- Hk, skipn_app, skipn_all, Nat.sub_diag. simpl.
    apply IH. lia.
Qed.

(** A string that is empty or consists of white space only is trimmed to
    the empty string. *)
Lemma TrimSpace_blank s :
  strings.blank (strings.codes s) -> strings.TrimSpace s = "".
Proof.
  intros Hb. unfold strings.TrimSpace, strings.TrimLeftSpace.
  rewrite (strip_blank _ Hb) by lia. reflexivity.
Qed.

Lemma list_pair_ind {A} (P : list A -> Prop) :
  P [] -> (forall a, P [a]) -> (forall a b l, P l -> P (a :: b :: l)) ->
  forall l, P l.
Proof.
  intros Hnil Hone Hcons.
  assert (H : forall l, P l /\ forall a, P (a :: l)).
  { induction l as [|b l [IH1 IH2]]; split; auto. }
  intros l. apply H.
Qed.

(** [hex.DecodeString] succeeds exactly on the strings of an even number of
    hexadecimal digits. *)
Lemma DecodeString_is_hex s :
  hex.is_hex s = true <-> exists bs, hex.DecodeString s = inl bs.
Proof.
  unfold hex.is_hex, hex.DecodeString.
  induction (bytes_of_string s) as [|a|a b l IH] using list_pair_ind.
  - simpl. split; eauto.
  - simpl. split; [discriminate | intros [bs Hbs]; discriminate].
  - change (Nat.even (length (a :: b :: l))) with (Nat.even (length l)).
    change (Nat.odd (length (a :: b :: l))) with (Nat.odd (length l)).
    simpl forallb. simpl hex.decode_pairs.
    destruct (Nat.odd (length l)) eqn:Hodd.
    + rewrite <- Nat.negb_odd, Hodd. simpl.
      split; [discriminate | intros [bs Hbs]; discriminate].
    + rewrite <- Nat.negb_odd, Hodd in *. simpl in *.
      destruct (hex.fromHexChar a); simpl;
        [|split; [discriminate | intros [bs Hbs]; discriminate]].
      destruct (hex.fromHexChar b); simpl;
        [|split; [discriminate | intros [bs Hbs]; discriminate]].
      destruct (hex.decode_pairs l) as [dst | e].
      * split; eauto. intros _. apply IH. eauto.
      * split; [|intros [bs Hbs]; discriminate].
        intros Hl. apply IH in Hl as [bs Hbs]. discriminate.
Qed.

Lemma Header_Get_Set key value h :
  http.Header_Get key (http.Header_Set key value h) = value.
Proof.
  unfold http.Header_Get, http.Header_Set. now rewrite lookup_insert_eq.
Qed.

(** C6, as the code has it.  For a digest string that is not blank (not
    empty once white space is trimmed) on a run that gets as far as the
    digest: when the string as given is not an even number of hexadecimal
    digits the goroutine takes the error exit with the wrapped decoding
    error and [Transport.RoundTrip] is not called; when it is, the
    Content-MD5 header of the request is the standard base64 encoding of the
    decoded bytes, and that request, signed, is what the transport gets. *)
Theorem digest_header c md5HexString size bucket object req :
  0 <= size ->
  newRequest c "PUT" (objectURL c bucket object) http.PipeReader = inl req ->
  strings.TrimSpace md5HexString <> "" ->
  let req0 := http.set_ContentLength size (http.set_Method "PUT" req) in
  let l := Put_go c md5HexString size bucket object in
  (hex.is_hex md5HexString = false ->
     exists e,
       hex.DecodeString md5HexString = inr e
       /\ l = abort (iodine.New (hex_error e))
       /\ filter is_RoundTrip l = []
       /\ RoundTrips (after_go l) = [])
  /\ (hex.is_hex md5HexString = true ->
     exists md5 req',
       hex.DecodeString md5HexString = inl md5
       /\ set_ContentMD5 md5HexString req0 = inl req'
       /\ http.Header req'
          = http.Header_Set "Content-MD5" (base64.StdEncoding_EncodeToString md5)
              (http.Header req)
       /\ http.Header_Get "Content-MD5" (http.Header req')
          = base64.StdEncoding_EncodeToString md5
       /\ exists rest, l = Transport_RoundTrip (sign c req') :: rest).
Proof.
  intros Hs Hreq Hb req0 l. split; intros Hhex.
  - destruct (hex.DecodeString md5HexString) as [md5 | e] eqn:Hd.
    { assert (Hx : hex.is_hex md5HexString = true) by (apply DecodeString_is_hex; eauto).
      congruence. }
    exists e. split; [reflexivity|].
    assert (Hl : l = abort (iodine.New (hex_error e))).
    { unfold l, Put_go, set_ContentMD5.
      now rewrite (size_not_negative _ Hs), Hreq, (not_blank_test _ Hb), Hd. }
    rewrite Hl. repeat split.
  - apply DecodeString_is_hex in Hhex as [md5 Hd].
    assert (Hmd5 : set_ContentMD5 md5HexString req0
                   = inl (http.set_Header
                            (http.Header_Set "Content-MD5"
                               (base64.StdEncoding_EncodeToString md5) (http.Header req0))
                            req0)).
    { unfold set_ContentMD5. now rewrite (not_blank_test _ Hb), Hd. }
    eexists md5, _. split; [exact Hd|]. split; [exact Hmd5|].
    split; [reflexivity|]. split; [apply Header_Get_Set|].
    unfold l, Put_go. fold req0.
    rewrite (size_not_negative _ Hs), Hreq. fold req0. rewrite Hmd5. eauto.
Qed.

Lemma digest_header_witness :
  exists req' rest,
    Put_go (stub_client (inl OK)) "d41d8cd98f00b204e9800998ecf8427e" 0 "bucket" "object"
    = Transport_RoundTrip req' :: rest
    /\ http.Header_Get "Content-MD5" (http.Header req') = "1B2M2Y8AsgTpgAmY7PhCfg==".
Proof.
  assert (Hb : strings.TrimSpace "d41d8cd98f00b204e9800998ecf8427e" <> "")
    by (vm_compute; discriminate).
  destruct (digest_header (stub_client (inl OK)) "d41d8cd98f00b204e9800998ecf8427e" 0
              "bucket" "object" _ (Z.le_refl 0) eq_refl Hb) as [_ Hvalid].
  destruct (Hvalid eq_refl) as (md5 & req' & Hd & _ & _ & Hget & rest & Hl).
  exists (sign (stub_client (inl OK)) req'), rest. split; [exact Hl|].
  injection Hd as <-. exact Hget.
Defined.

(** C6, as it is stated, fails on a digest of one space: the string is not
    empty and is not hexadecimal, yet the goroutine does not fail; it calls
    the transport with a request that carries no Content-MD5 header and
    leaves by the success exit. *)
Lemma blank_digest_is_not_rejected :
  " " <> ""
  /\ hex.is_hex " " = false
  /\ (exists e, hex.DecodeString " " = inr e)
  /\ Put_go (stub_client (inl OK)) " " 0 "bucket" "object"
     = [Transport_RoundTrip (stub_request "PUT" "/bucket/object" http.PipeReader);
        r_Close; Release_Done; Release_record None]
  /\ RoundTrips (after_go (Put_go (stub_client (inl OK)) " " 0 "bucket" "object"))
     = [stub_request "PUT" "/bucket/object" http.PipeReader]
  /\ err (blockingWriter (after_go (Put_go (stub_client (inl OK)) " " 0 "bucket" "object")))
     = None.
Proof. repeat split; (discriminate || reflexivity || (eexists; reflexivity)). Qed.

(** C9. For a digest string that is empty or consists of white space only,
    no Content-MD5 header is set and no decoding error can arise: the
    request passes the digest step as it is, the goroutine runs as it does
    for the empty string, and with a size that is not negative and a
    request that is built it goes on to the transport with the headers
    [newRequest] gave. *)
Theorem blank_digest_is_no_digest c md5HexString size bucket object :
  strings.blank (strings.codes md5HexString) ->
  (forall req, set_ContentMD5 md5HexString req = inl req)
  /\ Put_go c md5HexString size bucket object = Put_go c "" size bucket object
  /\ forall req,
       0 <= size ->
       newRequest c "PUT" (objectURL c bucket object) http.PipeReader = inl req ->
       exists req' rest,
         Put_go c md5HexString size bucket object
         = Transport_RoundTrip (sign c req') :: rest
         /\ req' = http.set_ContentLength size (http.set_Method "PUT" req)
         /\ http.Header req' = http.Header req.
Proof.
  intros Hb. apply TrimSpace_blank in Hb.
  assert (Hmd5 : forall req, set_ContentMD5 md5HexString req = inl req).
  { intros req. unfold set_ContentMD5. now rewrite Hb. }
  split; [exact Hmd5|]. split.
  - unfold Put_go. destruct (size <? 0); [reflexivity|].
    destruct (newRequest c "PUT" (objectURL c bucket object) http.PipeReader);
      [|reflexivity].
    now rewrite Hmd5.
  - intros req Hs Hreq. unfold Put_go.
    rewrite (size_not_negative _ Hs), Hreq, Hmd5. eauto.
Qed.

Lemma blank_digest_is_no_digest_witness :
  Put_go (stub_client (inl OK)) "  " 0 "bucket" "object"
  = Put_go (stub_client (inl OK)) "" 0 "bucket" "object".
Proof.
  assert (Hb : strings.blank (strings.codes "  ")).
  { apply (strings.blank_rune [32%N] [32%N]); [constructor; lia|].
    apply (strings.blank_rune [32%N] []); [constructor; lia|].
    constructor. }
  apply (blank_digest_is_no_digest (stub_client (inl OK)) "  " 0 "bucket" "object" Hb).
Defined.

(** ** Writing after a failure *)

(** The handle taken alone.  Once the read end of the pipe is closed with
    the error [e], every [Write] on the handle reports no byte accepted and
    returns an error, which it also records.  While the caller has not
    closed the handle the error is [e]; after the caller's own [Close] it is
    [ErrClosedPipe].  The call leaves both ends of the pipe as they were, so
    the same holds of the next [Write]. *)
Theorem Write_after_failure (b : BlockingWriteCloser io.pipe) (e : error)
    (p : list byte) :
  io.rerr (w b) = Some e ->
  (exists e', snd (Write p b) = Returned (0%nat, Some e')
              /\ err (fst (Write p b)) = Some e')
  /\ (io.werr (w b) = None -> snd (Write p b) = Returned (0%nat, Some e))
  /\ (io.werr (w b) <> None -> snd (Write p b) = Returned (0%nat, Some ErrClosedPipe))
  /\ io.rerr (w (fst (Write p b))) = Some e
  /\ io.werr (w (fst (Write p b))) = io.werr (w b).
Proof.
  intros Hr. destruct (Write_closed_pipe b e p Hr) as (H1 & H2 & H3 & H4 & _).
  split; [eauto|]. split; [|split; [|auto]].
  - intros Hw. now rewrite Hw in H1.
  - intros Hw. destruct (io.werr (w b)); [exact H1 | congruence].
Qed.

Lemma Write_after_failure_witness :
  snd (Write hello
         (blockingWriter
            (after_go (Put_go (stub_client (inl Forbidden)) "" 5 "bucket" "object"))))
  = Returned (0%nat, Some (iodine.New (NewError Forbidden))).
Proof.
  apply (Write_after_failure
           (blockingWriter
              (after_go (Put_go (stub_client (inl Forbidden)) "" 5 "bucket" "object")))
           (iodine.New (NewError Forbidden)) hello eq_refl).
  reflexivity.
Defined.

(** A [Write] that follows the caller's own [Close], which is past what
    the handle is for: the goroutine has failed with the error of the 403 answer and
    [Close] returns it, but the [Write] after it returns [ErrClosedPipe],
    which is another error. *)
Lemma Write_after_Close_is_ErrClosedPipe :
  let b := blockingWriter
             (after_go (Put_go (stub_client (inl Forbidden)) "" 5 "bucket" "object")) in
  let e := iodine.New (NewError Forbidden) in
  io.rerr (w b) = Some e
  /\ snd (Close b) = Returned (Some e)
  /\ snd (Write hello (fst (Close b))) = Returned (0%nat, Some ErrClosedPipe)
  /\ Some ErrClosedPipe <> Some e.
Proof. repeat split; (discriminate || reflexivity). Qed.

(** ** The recorded error *)

Section Sticky.

Context {W : Type} `{io.WriteCloser W}.




End Sticky.



(** ** Schedules *)

Ltac step_cases :=
  repeat match goal with
         | H : context [match ?x with _ => _ end] |- _ =>
             let E := fresh "E" in destruct x eqn:E
         | H : Some _ = Some _ |- _ => injection H as <-
         | H : (_, _) = (_, _) |- _ => injection H as ? ?
         end;
  try discriminate.

(** No statement of either side changes the list of requests handed to the
    transport, but the entry of [Transport.RoundTrip]. *)
Lemma step_no_RoundTrip l s s' :
  step l s = Some s' ->
  filter is_RoundTrip (go s) = [] ->
  in_RoundTrip s = false ->
  filter is_RoundTrip (go s') = []
  /\ in_RoundTrip s' = false
  /\ RoundTrips (shared s') = RoundTrips (shared s).
Proof.
  unfold step. destruct (crashed s); [discriminate|].
  destruct l as [| |k]; intros Hstep Hgo Hin.
  - unfold caller_step in Hstep. step_cases; simpl; auto.
  - unfold go_step in Hstep. destruct (go s) as [|i l] eqn:Hl; [discriminate|].
    destruct i; simpl in Hgo; try discriminate;
      unfold exec, on_pipe, release_Done, record, bind, zoom, modify, ret in Hstep;
      simpl in Hstep; step_cases; subst; simpl; auto.
  - unfold read_step in Hstep. rewrite Hin in Hstep. discriminate.
Qed.

Lemma run_no_RoundTrip sched s s' :
  run sched s = Some s' ->
  filter is_RoundTrip (go s) = [] ->
  in_RoundTrip s = false ->
  RoundTrips (shared s') = RoundTrips (shared s).
Proof.
  revert s. induction sched as [|l sched IH]; intros s Hrun Hgo Hin; simpl in Hrun.
  - now injection Hrun as <-.
  - destruct (step l s) as [s1|] eqn:Hstep; [|discriminate].
    destruct (step_no_RoundTrip l s s1 Hstep Hgo Hin) as (Hgo1 & Hin1 & Heq).
    rewrite <- Heq. now apply IH.
Qed.

(** The counter of the handle's wait group. *)
Lemma step_counter l s s' :
  step l s = Some s' ->
  sync.counter (release (blockingWriter (shared s')))
  <= sync.counter (release (blockingWriter (shared s))).
Proof.
  unfold step. destruct (crashed s); [discriminate|].
  destruct l as [| |k]; intros Hstep.
  - unfold caller_step in Hstep. step_cases; simpl; try lia;
      match goal with |- context [match ?e with Some _ => _ | None => _ end] =>
        destruct e; simpl; lia end.
  - unfold go_step in Hstep. destruct (go s) as [|i l] eqn:Hl; [discriminate|].
    destruct i;
      unfold exec, on_pipe, release_Done, record, bind, zoom, modify, ret,
        sync.Done, sync.Add in Hstep;
      simpl in Hstep; step_cases; subst; simpl; try lia;
      match goal with |- context [match ?e with Some _ => _ | None => _ end] =>
        destruct e; simpl; lia end.
  - unfold read_step in Hstep. step_cases. simpl. lia.
Qed.

Lemma step_woken l s s' :
  step l s = Some s' ->
  (woken s -> sync.counter (release (blockingWriter (shared s))) <= 0) ->
  woken s' -> sync.counter (release (blockingWriter (shared s'))) <= 0.
Proof.
  intros Hstep Hinv Hw'.
  pose proof (step_counter l s s' Hstep) as Hle.
  assert (Hcases : woken s \/ sync.counter (release (blockingWriter (shared s'))) <= 0).
  { revert Hstep Hw'. unfold step. destruct (crashed s); [discriminate|].
    destruct l as [| |k]; intros Hstep Hw'.
    - unfold caller_step in Hstep. unfold woken in *.
      step_cases; simpl in *;
        try (destruct Hw' as [Hw' | [e' Hw']]; [discriminate|]);
        try (left; right; eauto; fail);
        try (apply in_app_or in Hw' as [Hw' | [Hw' | []]];
             [left; right; eauto | discriminate]);
        try (left; left; reflexivity).
      right. unfold sync.Wait in *.
      destruct (sync.counter (release (blockingWriter (shared s))) =? 0) eqn:Hz;
        [|discriminate].
      apply Z.eqb_eq in Hz. lia.
    - left. unfold go_step in Hstep. unfold woken in *.
      step_cases; simpl in *; exact Hw'.
    - left. unfold read_step in Hstep. unfold woken in *.
      step_cases; simpl in *; exact Hw'. }
  destruct Hcases as [Hw | Hc]; [|exact Hc]. specialize (Hinv Hw). lia.
Qed.

(** Under every schedule, a [Close] that has returned has found the wait
    group at zero: on a handle made by [NewBlockingWriteCloser] the
    goroutine has run the [Done] of its [Release] before. *)
Lemma Close_returns_after_Done sched wd l cs s e :
  run sched (start wd l cs) = Some s ->
  In (Close_returned e) (results s) ->
  sync.counter (release (blockingWriter (shared s))) <= 0.
Proof.
  intros Hrun Hin.
  assert (Hgen : forall sched s0,
             run sched s0 = Some s ->
             (woken s0 -> sync.counter (release (blockingWriter (shared s0))) <= 0) ->
             woken s -> sync.counter (release (blockingWriter (shared s))) <= 0).
  { clear. induction sched as [|lb sched IH]; intros s0 Hrun Hinv; simpl in Hrun.
    - now injection Hrun as <-.
    - destruct (step lb s0) as [s1|] eqn:Hstep; [|discriminate].
      apply (IH s1 Hrun). now apply (step_woken lb s0 s1). }
  apply (Hgen sched (start wd l cs) Hrun).
  - intros [Hw | [e' []]]. discriminate.
  - right. eauto.
Qed.

(** ** What [Put] itself returns *)

(** A bucket name that is not valid, or that holds a dot, is the one error
    [Put] returns itself: no pipe is made and no goroutine started. *)
Lemma Put_invalid_bucket valid c md5HexString size :
  valid (fst (url2BucketAndObject c)) = false
  \/ strings.Contains (fst (url2BucketAndObject c)) "." = true ->
  Put valid c md5HexString size
  = Put_error (iodine.New (InvalidBucketName (fst (url2BucketAndObject c)))).
Proof.
  unfold Put. destruct (url2BucketAndObject c) as [bucket object]. simpl.
  intros [-> | ->]; [reflexivity | now rewrite orb_true_r].
Qed.

(** C1, as the code has it.  For a negative size and a bucket name that
    passes the check, [Put] returns the handle and a nil error, with the
    pipe made and the goroutine started.  The goroutine consists of the
    error exit alone: it closes the read end with the wrapped
    [InvalidArgument] error and releases the handle with it.  It holds no
    call of [Transport.RoundTrip], and under every schedule of the caller
    and the goroutine the list of requests handed to the transport stays
    empty. *)
Theorem negative_size_goes_to_the_goroutine valid c md5HexString size :
  size < 0 ->
  valid (fst (url2BucketAndObject c)) = true ->
  strings.Contains (fst (url2BucketAndObject c)) "." = false ->
  let e := iodine.New (InvalidArgument (errors_New "invalid argument")) in
  let l := [r_CloseWithError e; Release_Done; Release_record (Some e)] in
  Put valid c md5HexString size = Put_started fresh_world l
  /\ Put_err (Put valid c md5HexString size) = None
  /\ filter is_RoundTrip l = []
  /\ io.rerr (w (blockingWriter (after_go l))) = Some e
  /\ err (blockingWriter (after_go l)) = Some e
  /\ RoundTrips (after_go l) = []
  /\ forall cs sched s,
       run sched (start fresh_world l cs) = Some s -> RoundTrips (shared s) = [].
Proof.
  intros Hs Hv Hdot e l.
  assert (HP : Put valid c md5HexString size = Put_started fresh_world l).
  { unfold Put. destruct (url2BucketAndObject c) as [bucket object]. simpl in Hv, Hdot.
    rewrite Hv, Hdot. simpl. unfold Put_go. now rewrite (size_negative _ Hs). }
  split; [exact HP|]. split; [now rewrite HP|]. repeat split.
  intros cs sched s Hrun.
  now rewrite (run_no_RoundTrip sched _ s Hrun eq_refl eq_refl).
Qed.

Lemma negative_size_goes_to_the_goroutine_witness :
  Put_err (Put stub_valid (stub_client (inl OK)) "" (-1)) = None.
Proof.
  refine (proj1 (proj2 (negative_size_goes_to_the_goroutine stub_valid
                          (stub_client (inl OK)) "" (-1) _ eq_refl eq_refl))).
  lia.
Defined.

(** C1, as it is stated, fails at size -1 on a client with a valid bucket
    name: [Put] returns no error but the handle, on a pipe it has made and
    with the goroutine it has started. *)
Lemma Put_negative_size_returns_a_handle :
  Put_err (Put stub_valid (stub_client (inl OK)) "" (-1)) = None
  /\ (~ exists e, Put stub_valid (stub_client (inl OK)) "" (-1) = Put_error e)
  /\ Put stub_valid (stub_client (inl OK)) "" (-1)
     = Put_started
         {| blockingWriter := NewBlockingWriteCloser io.Pipe; RoundTrips := [] |}
         (abort (iodine.New (InvalidArgument (errors_New "invalid argument")))).
Proof.
  split; [reflexivity|]. split; [|reflexivity].
  intros [e He]. discriminate He.
Qed.

(** ** [Close] against [Release] *)

(** The upload of "hello" against a transport that answers OK: the write
    is taken, and [Close] returns nil. *)
Example upload_hello_OK :
  option_map results
    (upload (stub_client (inl OK)) "" 5 [call_Write hello; call_Close]
       [caller_runs; go_runs; transport_reads 4; caller_runs; caller_runs; caller_runs;
        caller_runs; caller_runs; go_runs; go_runs; go_runs; go_runs;
        caller_runs; caller_runs])
  = Some [Write_returned 5 None; Close_returned None].
Proof. reflexivity. Qed.

(** The upload of "hello" against a transport that answers 403 Forbidden,
    when [Release] has run both its statements before [Close] reads the
    error: [Close] returns the error of the answer. *)
Example upload_hello_Forbidden :
  option_map results
    (upload (stub_client (inl Forbidden)) "" 5 [call_Write hello; call_Close]
       [caller_runs; go_runs; transport_reads 4; caller_runs; caller_runs; caller_runs;
        caller_runs; caller_runs; go_runs; go_runs; go_runs; go_runs;
        caller_runs; caller_runs])
  = Some [Write_returned 5 None;
          Close_returned (Some (iodine_Error (s3_Error
            {| http.StatusCode := 403; http.ResponseBody := "Forbidden" |})))].
Proof. reflexivity. Qed.

(** C3.  The same upload under another schedule.  The caller writes
    "hello", the transport reads it, the caller calls [Close] and waits; the
    transport answers 403, the goroutine closes the read end with the error
    and runs [b.release.Done()], the first statement of [Release].  Now
    [Wait] returns and [Close] returns [b.err], which is still nil; only
    then does the goroutine run the second statement of [Release] and record
    the error.  [Close] has returned nil for an upload whose outcome is the
    error. *)
Theorem Close_returns_nil_before_Release_records :
  exists s,
    upload (stub_client (inl Forbidden)) "" 5 [call_Write hello; call_Close]
      [caller_runs; go_runs; transport_reads 4; caller_runs; caller_runs; caller_runs;
       caller_runs; caller_runs;
       go_runs; go_runs; go_runs;
       caller_runs; caller_runs;
       go_runs] = Some s
    /\ finished s = true
    /\ crashed s = false
    /\ results s = [Write_returned 5 None; Close_returned None]
    /\ err (blockingWriter (shared s)) = Some (iodine.New (NewError Forbidden))
    /\ io.rerr (w (blockingWriter (shared s))) = Some (iodine.New (NewError Forbidden)).
Proof.
  eexists. split; [vm_compute; reflexivity|].
  vm_compute. repeat split.
Qed.

(** A second [Release] panics: after the goroutine's own [Release] of an
    error, the [Done] of another call ends the program, and the handle still
    holds the first error. *)
Example second_Release_panics :
  exists s,
    run [go_runs; go_runs; go_runs]
      (start fresh_world (Release_call (Some ErrClosedPipe) ++ Release_call None) [])
    = Some s
    /\ crashed s = true
    /\ err (blockingWriter (shared s)) = Some ErrClosedPipe
    /\ step go_runs s = None.
Proof.
  eexists. split; [vm_compute; reflexivity|].
  vm_compute. repeat split.
Qed.

(** The same race on the shortest upload: size -1, no write. *)
Example Close_returns_nil_on_negative_size :
  exists s,
    upload (stub_client (inl OK)) "" (-1) [call_Close]
      [go_runs; go_runs; caller_runs; caller_runs; caller_runs; caller_runs; go_runs]
    = Some s
    /\ finished s = true
    /\ results s = [Close_returned None]
    /\ err (blockingWriter (shared s))
       = Some (iodine.New (InvalidArgument (errors_New "invalid argument"))).
Proof.
  eexists. split; [vm_compute; reflexivity|].
  vm_compute. repeat split.
Qed.

(** ** Every schedule of an upload *)

Lemma run_app sched1 sched2 s :
  run (sched1 ++ sched2) s =
  match run sched1 s with
  | Some s' => run sched2 s'
  | None => None
  end.
Proof.
  revert s. induction sched1 as [|l sched1 IH]; intros s; simpl; [reflexivity|].
  destruct (step l s); [apply IH | reflexivity].
Qed.

Lemma Put_go_one_Done c md5HexString size bucket object :
  count_Done (Put_go c md5HexString size bucket object) = 1.
Proof.
  unfold count_Done.
  destruct (Put_go_total c md5HexString size bucket object)
    as [[e Hf] | (req & req' & res & _ & _ & _ & _ & _ & Hl)].
  - destruct (failure_Put_go _ _ _ _ _ _ Hf) as [Hl | [req Hl]]; now rewrite Hl.
  - now rewrite Hl.
Qed.

Lemma Put_go_closes c md5HexString size bucket object :
  existsb is_close (Put_go c md5HexString size bucket object) = true.
Proof.
  destruct (Put_go_total c md5HexString size bucket object)
    as [[e Hf] | (req & req' & res & _ & _ & _ & _ & _ & Hl)].
  - destruct (failure_Put_go _ _ _ _ _ _ Hf) as [Hl | [req Hl]]; now rewrite Hl.
  - now rewrite Hl.
Qed.

Lemma Put_go_RoundTrips c md5HexString size bucket object :
  (length (filter is_RoundTrip (Put_go c md5HexString size bucket object)) <= 1)%nat.
Proof.
  destruct (Put_go_total c md5HexString size bucket object)
    as [[e Hf] | (req & req' & res & _ & _ & _ & _ & _ & Hl)].
  - destruct (failure_Put_go _ _ _ _ _ _ Hf) as [Hl | [req Hl]]; rewrite Hl; simpl; lia.
  - rewrite Hl. simpl. lia.
Qed.

Lemma start_Inv c md5HexString size bucket object cs :
  Inv (length cs) (start fresh_world (Put_go c md5HexString size bucket object) cs).
Proof.
  unfold Inv. simpl. repeat split.
  - now rewrite Put_go_one_Done.
  - right. apply Put_go_closes.
  - intros H. now destruct H.
  - pose proof (Put_go_RoundTrips c md5HexString size bucket object). lia.
  - discriminate.
Qed.

(** A statement of the caller leaves the goroutine, the wait group, the
    requests and the error of the read end as they are. *)
Lemma caller_step_frame s s' :
  caller_step s = Some s' ->
  crashed s' = crashed s
  /\ go s' = go s
  /\ in_RoundTrip s' = in_RoundTrip s
  /\ RoundTrips (shared s') = RoundTrips (shared s)
  /\ release (blockingWriter (shared s')) = release (blockingWriter (shared s))
  /\ io.rerr (w (blockingWriter (shared s'))) = io.rerr (w (blockingWriter (shared s))).
Proof.
  unfold caller_step, io.write_offer, io.write_wait, io.PipeWriter_Close. intros Hstep.
  step_cases; simplify_eq; simpl; repeat split;
    try match goal with |- context [match ?e with Some _ => _ | None => _ end] =>
          destruct e; reflexivity end.
Qed.

Lemma caller_step_calls s s' :
  caller_step s = Some s' ->
  (at_pos s <> Idle -> calls s <> []) ->
  (at_pos s' <> Idle -> calls s' <> [])
  /\ (length (results s') + length (calls s') = length (results s) + length (calls s))%nat
  /\ (caller_measure s' < caller_measure s)%nat.
Proof.
  unfold caller_step, caller_measure. intros Hstep Hpos.
  step_cases; simplify_eq; simpl in *;
    repeat match goal with H : calls _ = _ |- _ => rewrite H in * end;
    simpl in *; rewrite ?length_app; simpl;
    repeat split; try discriminate; try congruence; try lia.
Qed.

Lemma caller_step_Inv n s s' :
  Inv n s -> caller_step s = Some s' -> Inv n s'.
Proof.
  intros (Hc & Hcnt & Hcl & Hpos & Hlen & Hrt & Hin) Hstep.
  destruct (caller_step_frame s s' Hstep) as (F1 & F2 & F3 & F4 & F5 & F6).
  destruct (caller_step_calls s s' Hstep Hpos) as (C1 & C2 & _).
  unfold Inv. rewrite F1, F2, F3, F4, F5, F6, C2. auto 10.
Qed.

Lemma read_step_Inv n k s s' :
  Inv n s -> read_step k s = Some s' -> Inv n s'.
Proof.
  intros (Hc & Hcnt & Hcl & Hpos & Hlen & Hrt & Hin). unfold read_step, io.read.
  destruct (in_RoundTrip s) eqn:E; [|discriminate]. intros [= <-].
  unfold Inv. simpl. repeat split; auto.
  destruct Hcl as [Hcl | Hcl]; [left|now right].
  now destruct (io.data (w (blockingWriter (shared s)))).
Qed.

Lemma go_step_Inv n s s' :
  Inv n s -> go_step s = Some s' -> Inv n s' /\ (go_measure s' < go_measure s)%nat.
Proof.
  intros (Hc & Hcnt & Hcl & Hpos & Hlen & Hrt & Hin). unfold go_step, go_measure.
  destruct (go s) as [|i l] eqn:Hgo; [discriminate|].
  destruct i as [e | | | e | req].
  - (* r.CloseWithError *)
    destruct (in_RoundTrip s); [specialize (Hin eq_refl); discriminate|].
    simpl. intros [= <-]. unfold Inv, count_Done in *. simpl in *.
    repeat split; auto; try lia; try (left; discriminate).
  - (* r.Close *)
    destruct (in_RoundTrip s); [specialize (Hin eq_refl); discriminate|].
    simpl. intros [= <-]. unfold Inv, count_Done in *. simpl in *.
    repeat split; auto; try lia; try (left; discriminate).
  - (* b.release.Done *)
    destruct (in_RoundTrip s); [specialize (Hin eq_refl); discriminate|].
    unfold exec, release_Done, zoom, sync.Done, sync.Add.
    unfold count_Done in Hcnt. simpl in Hcnt. rewrite Hcnt.
    destruct (Z.of_nat (S (length (filter is_Release_Done l))) + -1 <? 0) eqn:E;
      [apply Z.ltb_lt in E; lia|].
    intros [= <-]. unfold Inv, count_Done. simpl in *.
    repeat split; auto; lia.
  - (* b.err = err *)
    destruct (in_RoundTrip s); [specialize (Hin eq_refl); discriminate|].
    simpl. intros [= <-]. unfold Inv, count_Done in *. simpl in *.
    repeat split; auto; try lia; destruct e; simpl; auto.
  - (* Transport.RoundTrip *)
    destruct (in_RoundTrip s) eqn:E; intros [= <-];
      unfold Inv, count_Done in *; simpl in *; rewrite ?Hgo; simpl;
      rewrite ?length_app; simpl; repeat split; auto; try lia.
Qed.

Lemma step_Inv n l s s' : Inv n s -> step l s = Some s' -> Inv n s'.
Proof.
  intros HI. unfold step. destruct (crashed s); [discriminate|].
  destruct l as [| |k]; intros Hstep.
  - eapply caller_step_Inv; eauto.
  - eapply go_step_Inv; eauto.
  - eapply read_step_Inv; eauto.
Qed.

Lemma run_Inv n sched s s' : Inv n s -> run sched s = Some s' -> Inv n s'.
Proof.
  revert s. induction sched as [|l sched IH]; intros s HI Hrun; simpl in Hrun.
  - now injection Hrun as <-.
  - destruct (step l s) as [s1|] eqn:Hstep; [|discriminate].
    eapply IH; [eapply step_Inv|]; eauto.
Qed.

Lemma go_step_enabled n s :
  Inv n s -> go s <> [] -> exists s', go_step s = Some s'.
Proof.
  intros _ Hgo. unfold go_step. destruct (go s) as [|i l]; [congruence|].
  destruct i as [e | | | e | req]; simpl; eauto.
  - unfold release_Done, zoom, sync.Done, sync.Add.
    destruct (sync.counter (release (blockingWriter (shared s))) + -1 <? 0); eauto.
  - destruct (in_RoundTrip s); eauto.
Qed.

Lemma go_step_caller s s' :
  go_step s = Some s' ->
  calls s' = calls s /\ at_pos s' = at_pos s /\ results s' = results s.
Proof.
  unfold go_step. intros Hstep. step_cases; simplify_eq; simpl; auto.
Qed.

(** No statement of the goroutine blocks, the transport taken to answer:
    the steps of the goroutine bring it to its last statement. *)
Lemma drain_go n m : forall s,
  Inv n s -> (go_measure s <= m)%nat ->
  exists k s',
    run (repeat go_runs k) s = Some s'
    /\ go s' = [] /\ Inv n s'
    /\ calls s' = calls s /\ at_pos s' = at_pos s /\ results s' = results s.
Proof.
  induction m as [|m IH]; intros s HI Hm.
  - destruct (go s) as [|i l] eqn:Hgo.
    + exists 0%nat, s. simpl. auto 10.
    + unfold go_measure in Hm. rewrite Hgo in Hm. simpl in Hm.
      destruct (in_RoundTrip s); simpl in Hm; lia.
  - destruct (go s) as [|i l] eqn:Hgo.
    + exists 0%nat, s. simpl. auto 10.
    + destruct (go_step_enabled n s HI) as [s1 Hstep]; [congruence|].
      destruct (go_step_Inv n s s1 HI Hstep) as [HI1 Hlt].
      destruct (go_step_caller s s1 Hstep) as (C1 & C2 & C3).
      destruct (IH s1 HI1) as (k & s' & Hrun & Hdone & HI' & D1 & D2 & D3); [lia|].
      exists (S k), s'. simpl. unfold step.
      destruct HI as (Hc & _). rewrite Hc, Hstep.
      split; [exact Hrun|]. split; [exact Hdone|]. split; [exact HI'|].
      repeat split; congruence.
Qed.

Lemma caller_step_enabled n s :
  Inv n s -> go s = [] -> calls s <> [] -> exists s', caller_step s = Some s'.
Proof.
  intros (Hc & Hcnt & Hcl & Hpos & Hlen & Hrt & Hin) Hgo Hcalls.
  rewrite Hgo in Hcnt, Hcl. unfold count_Done in Hcnt. simpl in Hcnt.
  destruct Hcl as [Hcl | Hcl]; [|discriminate].
  unfold caller_step, io.write_offer, io.write_wait, io.PipeWriter_Close, sync.Wait.
  destruct (calls s) as [|c cs]; [congruence|].
  rewrite Hcnt. simpl.
  destruct (io.rerr (w (blockingWriter (shared s)))) as [er|]; [|congruence].
  destruct (io.data (w (blockingWriter (shared s))));
    destruct (io.werr (w (blockingWriter (shared s))));
    destruct (at_pos s); destruct c; eauto.
Qed.

(** Once the goroutine has ended, the caller can make all its calls: none
    of them blocks. *)
Lemma drain_caller n m : forall s,
  Inv n s -> go s = [] -> (caller_measure s <= m)%nat ->
  exists k s',
    run (repeat caller_runs k) s = Some s'
    /\ calls s' = [] /\ go s' = [] /\ Inv n s'.
Proof.
  induction m as [|m IH]; intros s HI Hgo Hm.
  - destruct (calls s) as [|c cs] eqn:Hcalls.
    + exists 0%nat, s. simpl. auto.
    + unfold caller_measure in Hm. rewrite Hcalls in Hm. simpl in Hm.
      destruct (at_pos s); simpl in Hm; lia.
  - destruct (calls s) as [|c cs] eqn:Hcalls.
    + exists 0%nat, s. simpl. auto.
    + destruct (caller_step_enabled n s HI Hgo) as [s1 Hstep]; [congruence|].
      pose proof (caller_step_Inv n s s1 HI Hstep) as HI1.
      destruct (caller_step_frame s s1 Hstep) as (_ & F2 & _).
      destruct HI as (Hc & Hcnt & Hcl & Hpos & Hrest).
      destruct (caller_step_calls s s1 Hstep Hpos) as (_ & _ & Hlt).
      destruct (IH s1 HI1) as (k & s' & Hrun & D1 & D2 & D3); [congruence | lia |].
      exists (S k), s'. simpl. unfold step. rewrite Hc, Hstep.
      split; [exact Hrun|]. split; [exact D1|]. split; [exact D2 | exact D3].
Qed.

(** X1. Under no schedule does an upload panic: the goroutine runs
    [Release] once, so the wait group never goes negative. *)
Theorem upload_never_panics c md5HexString size bucket object cs sched s :
  run sched (start fresh_world (Put_go c md5HexString size bucket object) cs) = Some s ->
  crashed s = false
  /\ 0 <= sync.counter (release (blockingWriter (shared s))) <= 1.
Proof.
  intros Hrun.
  pose proof (run_Inv _ _ _ _ (start_Inv c md5HexString size bucket object cs) Hrun)
    as (Hc & Hcnt & _).
  split; [exact Hc|].
  pose proof (step_counter) as _.
  assert (Hle : forall sched s0 s1, run sched s0 = Some s1 ->
            sync.counter (release (blockingWriter (shared s1)))
            <= sync.counter (release (blockingWriter (shared s0)))).
  { clear. induction sched as [|l sched IH]; intros s0 s1 Hrun; simpl in Hrun.
    - injection Hrun as <-. lia.
    - destruct (step l s0) as [s2|] eqn:Hstep; [|discriminate].
      pose proof (step_counter l s0 s2 Hstep). pose proof (IH s2 s1 Hrun). lia. }
  specialize (Hle _ _ _ Hrun). simpl in Hle.
  rewrite Hcnt in *. unfold count_Done in *. lia.
Qed.

Lemma upload_never_panics_witness :
  exists s,
    run [go_runs; go_runs; caller_runs; go_runs]
      (start fresh_world (Put_go (stub_client (inl OK)) "" (-1) "bucket" "object")
         [call_Close]) = Some s
    /\ crashed s = false.
Proof.
  assert (H : exists s,
             run [go_runs; go_runs; caller_runs; go_runs]
               (start fresh_world (Put_go (stub_client (inl OK)) "" (-1) "bucket" "object")
                  [call_Close]) = Some s)
    by (eexists; vm_compute; reflexivity).
  destruct H as [s Hrun]. exists s. split; [exact Hrun|].
  exact (proj1 (upload_never_panics (stub_client (inl OK)) "" (-1) "bucket" "object"
                  [call_Close] _ s Hrun)).
Defined.

(** X2. Under every schedule at most one request is handed to
    [Transport.RoundTrip]: there is no retry. *)
Theorem at_most_one_RoundTrip c md5HexString size bucket object cs sched s :
  run sched (start fresh_world (Put_go c md5HexString size bucket object) cs) = Some s ->
  (length (RoundTrips (shared s)) <= 1)%nat
  /\ (length (filter is_RoundTrip (Put_go c md5HexString size bucket object)) <= 1)%nat.
Proof.
  intros Hrun. split; [|apply Put_go_RoundTrips].
  pose proof (run_Inv _ _ _ _ (start_Inv c md5HexString size bucket object cs) Hrun)
    as (_ & _ & _ & _ & _ & Hrt & Hin).
  destruct (in_RoundTrip s) eqn:E; simpl in Hrt; [|lia].
  specialize (Hin eq_refl). destruct (go s) as [|[] l]; try discriminate.
  simpl in Hrt. lia.
Qed.

Lemma at_most_one_RoundTrip_witness :
  exists s,
    run [go_runs; transport_reads 0; go_runs; go_runs]
      (start fresh_world (Put_go (stub_client (inl Forbidden)) "" 5 "bucket" "object")
         [call_Close]) = Some s
    /\ (length (RoundTrips (shared s)) <= 1)%nat.
Proof.
  assert (H : exists s,
             run [go_runs; transport_reads 0; go_runs; go_runs]
               (start fresh_world
                  (Put_go (stub_client (inl Forbidden)) "" 5 "bucket" "object")
                  [call_Close]) = Some s)
    by (eexists; vm_compute; reflexivity).
  destruct H as [s Hrun]. exists s. split; [exact Hrun|].
  exact (proj1 (at_most_one_RoundTrip (stub_client (inl Forbidden)) "" 5 "bucket" "object"
                  [call_Close] _ s Hrun)).
Defined.

(** X3. Under every schedule, when a [Close] has returned the goroutine
    has run the [Done] of its [Release]: [Close] never returns before
    [Release] is called. *)
Theorem Close_returns_after_Release_is_called
    c md5HexString size bucket object cs sched s e :
  run sched (start fresh_world (Put_go c md5HexString size bucket object) cs) = Some s ->
  In (Close_returned e) (results s) ->
  filter is_Release_Done (go s) = [].
Proof.
  intros Hrun Hin.
  pose proof (run_Inv _ _ _ _ (start_Inv c md5HexString size bucket object cs) Hrun)
    as (_ & Hcnt & _).
  pose proof (Close_returns_after_Done _ _ _ _ _ _ Hrun Hin) as Hle.
  rewrite Hcnt in Hle. unfold count_Done in Hle.
  destruct (filter is_Release_Done (go s)); [reflexivity | simpl in Hle; lia].
Qed.

Lemma Close_returns_after_Release_is_called_witness :
  exists s,
    run [go_runs; go_runs; caller_runs; caller_runs; caller_runs; caller_runs]
      (start fresh_world (Put_go (stub_client (inl OK)) "" (-1) "bucket" "object")
         [call_Close]) = Some s
    /\ In (Close_returned None) (results s)
    /\ filter is_Release_Done (go s) = [].
Proof.
  assert (H : exists s,
             run [go_runs; go_runs; caller_runs; caller_runs; caller_runs; caller_runs]
               (start fresh_world (Put_go (stub_client (inl OK)) "" (-1) "bucket" "object")
                  [call_Close]) = Some s
             /\ In (Close_returned None) (results s))
    by (eexists; split; [vm_compute; reflexivity | left; reflexivity]).
  destruct H as (s & Hrun & Hin). exists s. split; [exact Hrun|]. split; [exact Hin|].
  exact (Close_returns_after_Release_is_called (stub_client (inl OK)) "" (-1)
           "bucket" "object" [call_Close] _ s None Hrun Hin).
Defined.

(** X4. Once [Transport.RoundTrip] has returned, or on a path that never
    calls it, the upload can always be brought to its end by the goroutine
    and the caller alone: from every such state a schedule reaches, the
    goroutine's remaining statements run without blocking, and then every
    call of the caller returns, a pending [Write] and [Close] included,
    without a panic.  (While the transport has not returned nothing of the
    kind is said: it may wait for bytes or for the end of the body.) *)
Theorem upload_finishes_once_the_transport_has_returned
    c md5HexString size bucket object cs sched s :
  run sched (start fresh_world (Put_go c md5HexString size bucket object) cs) = Some s ->
  in_RoundTrip s = false ->
  filter is_RoundTrip (go s) = [] ->
  exists k1 k2 s',
    run (repeat go_runs k1 ++ repeat caller_runs k2) s = Some s'
    /\ finished s' = true
    /\ crashed s' = false
    /\ length (results s') = length cs.
Proof.
  intros Hrun _ _.
  pose proof (run_Inv _ _ _ _ (start_Inv c md5HexString size bucket object cs) Hrun)
    as HI.
  destruct (drain_go _ _ s HI (Nat.le_refl _))
    as (k1 & s1 & Hrun1 & Hgo1 & HI1 & _).
  destruct (drain_caller _ _ s1 HI1 Hgo1 (Nat.le_refl _))
    as (k2 & s2 & Hrun2 & Hcalls2 & Hgo2 & HI2).
  exists k1, k2, s2.
  rewrite run_app, Hrun1. split; [exact Hrun2|].
  destruct HI2 as (Hc & _ & _ & _ & Hlen & _).
  unfold finished. rewrite Hcalls2, Hgo2 in *. simpl in Hlen.
  repeat split; auto. lia.
Qed.

Lemma upload_finishes_once_the_transport_has_returned_witness :
  exists s k1 k2 s',
    run [caller_runs; caller_runs; go_runs; go_runs; go_runs]
      (start fresh_world (Put_go (stub_client (inl Forbidden)) "" 5 "bucket" "object")
         [call_Close]) = Some s
    /\ run (repeat go_runs k1 ++ repeat caller_runs k2) s = Some s'
    /\ finished s' = true.
Proof.
  assert (H : exists s,
             run [caller_runs; caller_runs; go_runs; go_runs; go_runs]
               (start fresh_world
                  (Put_go (stub_client (inl Forbidden)) "" 5 "bucket" "object")
                  [call_Close]) = Some s
             /\ in_RoundTrip s = false
             /\ filter is_RoundTrip (go s) = [])
    by (eexists; split; [vm_compute; reflexivity | split; reflexivity]).
  destruct H as (s & Hrun & Hin & Hgo).
  destruct (upload_finishes_once_the_transport_has_returned
              (stub_client (inl Forbidden)) "" 5 "bucket" "object"
              [call_Close] _ s Hrun Hin Hgo) as (k1 & k2 & s' & Hrun' & Hfin & _).
  exists s, k1, k2, s'. auto.
Defined.

(** ** More of [Put] and of the handle *)

(** X5. The one error [Put] itself returns is [InvalidBucketName] of the
    client's bucket, wrapped, and it returns it exactly when the name fails
    the check or holds a dot, whatever the digest and the size; otherwise
    it returns the handle on a new pipe with the goroutine started. *)
Theorem Put_error_iff valid c md5HexString size :
  let bucket := fst (url2BucketAndObject c) in
  let object := snd (url2BucketAndObject c) in
  (forall e,
      Put valid c md5HexString size = Put_error e
      <-> e = iodine.New (InvalidBucketName bucket)
          /\ (valid bucket = false \/ strings.Contains bucket "." = true))
  /\ ((exists e, Put valid c md5HexString size = Put_error e)
      \/ Put valid c md5HexString size
         = Put_started fresh_world (Put_go c md5HexString size bucket object)).
Proof.
  unfold Put. destruct (url2BucketAndObject c) as [bucket object]. simpl.
  destruct (valid bucket); simpl; destruct (strings.Contains bucket "."); simpl.
  - split; [|left; eauto]. intros e. split; [intros [= <-]; auto | intros [-> _]; auto].
  - split; [|now right]. intros e. split; [discriminate | intros [_ [H | H]]; discriminate].
  - split; [|left; eauto]. intros e. split; [intros [= <-]; auto | intros [-> _]; auto].
  - split; [|left; eauto]. intros e. split; [intros [= <-]; auto | intros [-> _]; auto].
Qed.

Lemma set_ContentMD5_keeps md5HexString req req' :
  set_ContentMD5 md5HexString req = inl req' ->
  http.Method req' = http.Method req
  /\ http.ContentLength req' = http.ContentLength req
  /\ http.URL req' = http.URL req
  /\ http.Body req' = http.Body req.
Proof.
  unfold set_ContentMD5.
  destruct (negb (String.eqb (strings.TrimSpace md5HexString) ""));
    [destruct (hex.DecodeString md5HexString); [|discriminate]|];
    intros [= <-]; auto.
Qed.

(** X6. The request the transport gets is the request [newRequest] built
    with the method set to PUT and the content length set to the declared
    size, with the digest header when one is given, and then signed; it is
    left unsigned when either key is empty.  The transport is reached only
    with a size that is not negative. *)
Theorem transport_request c md5HexString size bucket object req :
  In (Transport_RoundTrip req) (Put_go c md5HexString size bucket object) ->
  exists req0 req1,
    0 <= size
    /\ newRequest c "PUT" (objectURL c bucket object) http.PipeReader = inl req0
    /\ set_ContentMD5 md5HexString
         (http.set_ContentLength size (http.set_Method "PUT" req0)) = inl req1
    /\ http.Method req1 = "PUT"
    /\ http.ContentLength req1 = size
    /\ http.URL req1 = http.URL req0
    /\ http.Body req1 = http.Body req0
    /\ req = sign c req1
    /\ (AccessKeyID c = "" \/ SecretAccessKey c = "" -> req = req1)
    /\ (AccessKeyID c <> "" -> SecretAccessKey c <> "" ->
        req = signRequest c req1 (Host c)).
Proof.
  unfold Put_go. intros Hin.
  destruct (Z.ltb_spec size 0) as [Hs | Hs].
  { simpl in Hin. intuition discriminate. }
  destruct (newRequest c "PUT" (objectURL c bucket object) http.PipeReader)
    as [req0 | e] eqn:Hreq.
  2: { simpl in Hin. intuition discriminate. }
  destruct (set_ContentMD5 md5HexString
              (http.set_ContentLength size (http.set_Method "PUT" req0)))
    as [req1 | e] eqn:Hmd5.
  2: { simpl in Hin. intuition discriminate. }
  assert (Hreq1 : req = sign c req1).
  { destruct Hin as [[= <-] | Hin]; [reflexivity|].
    destruct (Transport c (sign c req1)) as [res | e];
      [destruct (negb (http.StatusCode res =? http.StatusOK))|];
      simpl in Hin; intuition discriminate. }
  destruct (set_ContentMD5_keeps _ _ _ Hmd5) as (K1 & K2 & K3 & K4).
  exists req0, req1. repeat split; auto.
  - rewrite Hreq1. unfold sign. intros [-> | ->]; simpl; [reflexivity|].
    now rewrite andb_false_r.
  - rewrite Hreq1. unfold sign. intros H1 H2.
    apply String.eqb_neq in H1, H2. now rewrite H1, H2.
Qed.

Lemma transport_request_witness :
  exists req,
    In (Transport_RoundTrip req)
       (Put_go (stub_client (inl OK)) "" 5 "bucket" "object")
    /\ http.Method req = "PUT" /\ http.ContentLength req = 5.
Proof.
  assert (Hin : In (Transport_RoundTrip
                      (http.set_ContentLength 5
                         (stub_request "PUT" "/bucket/object" http.PipeReader)))
                   (Put_go (stub_client (inl OK)) "" 5 "bucket" "object"))
    by (left; reflexivity).
  destruct (transport_request (stub_client (inl OK)) "" 5 "bucket" "object" _ Hin)
    as (req0 & req1 & _ & _ & _ & Hm & Hl & _ & _ & _ & Hu & _).
  eexists. split; [exact Hin|].
  rewrite (Hu (or_introl eq_refl)). auto.
Defined.

Section MoreHandle.

Context {W : Type} `{io.WriteCloser W}.

Implicit Type b : BlockingWriteCloser W.

(** X7. [Write] hands on the byte count of the wrapped write and leaves
    the wait group alone; the error it returns is the wrapped write's when
    there is one and the recorded error otherwise, so it returns nil
    exactly when the wrapped write succeeded on a handle that holds no
    error.  A wrapped write that blocks makes [Write] block without
    recording anything. *)
Theorem Write_passes_through p b :
  (forall b' n r,
      Write p b = (b', Returned (n, r)) ->
      exists e',
        io.wc_Write p (w b) = (w b', Returned (n, e'))
        /\ release b' = release b
        /\ r = match e' with Some _ => e' | None => err b end
        /\ err b' = r
        /\ (r = None <-> e' = None /\ err b = None))
  /\ (snd (io.wc_Write p (w b)) = Blocked ->
      snd (Write p b) = Blocked /\ err (fst (Write p b)) = err b).
Proof.
  split.
  - intros b' n r. unfold_M.
    destruct (io.wc_Write p (w b)) as [w' [[n' e']| |msg]]; try discriminate.
    destruct e' as [e'|]; simpl; intros [= <- <- <-]; simpl.
    + exists (Some e'). repeat split; auto; try discriminate. intros [? _]. discriminate.
    + exists None. repeat split; auto. now intros [_ ?].
  - unfold_M. destruct (io.wc_Write p (w b)) as [w' [[n' e']| |msg]]; simpl;
      try discriminate. auto.
Qed.

(** X8. [Close] does not return while the wait group is not at zero,
    whatever the wrapped writer does; on a new handle it blocks after it
    has closed the wrapped writer and recorded the error of that. *)
Theorem Close_blocks_until_Release b :
  (sync.counter (release b) <> 0 -> forall r, snd (Close b) <> Returned r)
  /\ (forall x x' ce,
        io.wc_Close x = (x', Returned ce) ->
        Close (NewBlockingWriteCloser x)
        = ({| w := x'; release := {| sync.counter := 1 |}; err := ce |}, Blocked)).
Proof.
  split.
  - intros Hc r. unfold_M.
    destruct (io.wc_Close (w b)) as [w' [e'| |msg]]; simpl; try discriminate.
    destruct e'; simpl; apply Z.eqb_neq in Hc; rewrite Hc; discriminate.
  - intros x x' ce Hx. unfold_M. simpl. rewrite Hx. destruct ce; reflexivity.
Qed.

(** X9. [Close] after [Release(e)] on a new handle returns the error of
    closing the wrapped writer when there is one, and [e] otherwise: the
    writer's error, recorded last, replaces the released one. *)
Theorem Close_after_Release x x' e ce :
  io.wc_Close x = (x', Returned ce) ->
  snd (Close (fst (Release e (NewBlockingWriteCloser x))))
  = Returned (match ce with Some _ => ce | None => e end).
Proof.
  intros Hx. rewrite Release_new_returns. unfold_M. simpl. rewrite Hx.
  destruct ce; reflexivity.
Qed.

End MoreHandle.

Lemma Write_passes_through_witness :
  exists b' e',
    Write hello (set_w {| io.data := None; io.rerr := Some ErrClosedPipe;
                          io.werr := None |}
                   (NewBlockingWriteCloser io.Pipe))
    = (b', Returned (0%nat, Some ErrClosedPipe))
    /\ err b' = e' /\ e' <> None.
Proof.
  assert (Hw : exists b',
             Write hello (set_w {| io.data := None; io.rerr := Some ErrClosedPipe;
                                   io.werr := None |}
                            (NewBlockingWriteCloser io.Pipe))
             = (b', Returned (0%nat, Some ErrClosedPipe)))
    by (eexists; reflexivity).
  destruct Hw as [b' Hw].
  destruct (proj1 (Write_passes_through hello _) b' _ _ Hw) as (e' & _ & _ & _ & He & _).
  exists b', (Some ErrClosedPipe). split; [exact Hw|]. split; [exact He | discriminate].
Defined.

Lemma Close_blocks_until_Release_witness :
  snd (Close (NewBlockingWriteCloser io.Pipe)) <> Returned None.
Proof.
  apply (proj1 (Close_blocks_until_Release (NewBlockingWriteCloser io.Pipe))).
  simpl. lia.
Defined.

Lemma Close_after_Release_witness :
  snd (Close (fst (Release (Some ErrClosedPipe) (NewBlockingWriteCloser io.Pipe))))
  = Returned (Some ErrClosedPipe).
Proof.
  exact (Close_after_Release io.Pipe _ (Some ErrClosedPipe) None eq_refl).
Defined.

(** ** An upload that succeeds *)

Lemma read_all (p : list byte) r wr :
  io.read (S (length p)) {| io.data := Some p; io.rerr := r; io.werr := wr |}
  = {| io.data := None; io.rerr := r; io.werr := wr |}.
Proof.
  unfold io.read. cbn [io.data io.rerr io.werr].
  rewrite skipn_all2 by lia. reflexivity.
Qed.

(** X10. For every payload, on a run of the goroutine that reaches a
    transport answering 200: when the transport reads the whole payload
    before it answers, [Write] returns the length of the payload and nil,
    [Close] returns nil, the handle holds no error and the transport has
    been handed the one request. *)
Theorem upload_succeeds c md5HexString size bucket object p req req' res :
  0 <= size ->
  newRequest c "PUT" (objectURL c bucket object) http.PipeReader = inl req ->
  set_ContentMD5 md5HexString
    (http.set_ContentLength size (http.set_Method "PUT" req)) = inl req' ->
  Transport c (sign c req') = inl res ->
  http.StatusCode res = 200 ->
  exists s,
    run [caller_runs; go_runs; transport_reads (length p);
         caller_runs; caller_runs; caller_runs;
         caller_runs; caller_runs;
         go_runs; go_runs; go_runs; go_runs;
         caller_runs; caller_runs]
      (start fresh_world (Put_go c md5HexString size bucket object)
         [call_Write p; call_Close]) = Some s
    /\ results s = [Write_returned (length p) None; Close_returned None]
    /\ finished s = true
    /\ crashed s = false
    /\ err (blockingWriter (shared s)) = None
    /\ RoundTrips (shared s) = [sign c req'].
Proof.
  intros Hs Hreq Hmd5 Ht Hst.
  assert (Hl : Put_go c md5HexString size bucket object
               = [Transport_RoundTrip (sign c req'); r_Close;
                  Release_Done; Release_record None]).
  { unfold Put_go. rewrite (size_not_negative _ Hs), Hreq, Hmd5, Ht.
    unfold http.StatusOK. rewrite Hst. reflexivity. }
  rewrite Hl. generalize (sign c req'). intros rq.
  simpl. rewrite read_all. simpl.
  eexists. split; [reflexivity|]. simpl. repeat split.
Qed.

Lemma upload_succeeds_witness :
  exists s,
    run [caller_runs; go_runs; transport_reads 5;
         caller_runs; caller_runs; caller_runs;
         caller_runs; caller_runs;
         go_runs; go_runs; go_runs; go_runs;
         caller_runs; caller_runs]
      (start fresh_world (Put_go (stub_client (inl OK)) "" 5 "bucket" "object")
         [call_Write hello; call_Close]) = Some s
    /\ results s = [Write_returned 5 None; Close_returned None].
Proof.
  destruct (upload_succeeds (stub_client (inl OK)) "" 5 "bucket" "object" hello
              _ _ OK (Z.lt_le_incl 0 5 eq_refl) eq_refl eq_refl eq_refl eq_refl)
    as (s & Hrun & Hres & _).
  exists s. split; [exact Hrun | exact Hres].
Defined.

(** ** The filesystem client *)

(** X11. [New] gives no client for a path that is empty or white space
    only; for any other path it gives the client of the path as it is,
    untrimmed. *)
Theorem fs_New_blank (p : string) :
  (strings.blank (strings.codes p) -> fs.New p = None)
  /\ (forall f, fs.New p = Some f -> fs.path f = p /\ strings.TrimSpace p <> "")
  /\ (strings.TrimSpace p <> "" -> fs.New p = Some {| fs.path := p |}).
Proof.
  unfold fs.New. split; [|split].
  - intros Hb. now rewrite (TrimSpace_blank p Hb).
  - intros f. destruct (String.eqb_spec (strings.TrimSpace p) ""); [discriminate|].
    intros [= <-]. auto.
  - intros Hp. apply String.eqb_neq in Hp. now rewrite Hp.
Qed.

(** X12. [Stat] makes one call, [os.Stat] of the cleaned path.  For a file
    that is there it gives the name, size and time [os.Stat] gave, and a
    type that is never a directory's, whatever the mode of the file.  For an
    error of [os.Stat] it gives [FileNotFound] of the client's own path when
    the file does not exist and the error itself otherwise, each wrapped
    twice. *)
Theorem fs_Stat (os : fs.OS) (f : fs.fsClient) :
  fst (fs.Stat_ os f) = [fs.call_Stat (fs.Clean os (fs.path f))]
  /\ (forall st,
        fs.Stat os (fs.Clean os (fs.path f)) = inl st ->
        exists item,
          snd (fs.Stat_ os f) = inl item
          /\ fs.Name item = fs.fi_Name st
          /\ fs.Size item = fs.fi_Size st
          /\ fs.Time item = fs.fi_ModTime st
          /\ fs.IsDir (fs.FileType item) = false)
  /\ (forall e,
        fs.Stat os (fs.Clean os (fs.path f)) = inr e ->
        snd (fs.Stat_ os f)
        = inr (fs.iodine_New (fs.iodine_New
                 (if fs.IsNotExist e then fs.FileNotFound (fs.path f)
                  else fs.os_err e)))).
Proof.
  unfold fs.Stat_, fs.getFSMetadata, fs.fsStat. simpl. split; [reflexivity|]. split.
  - intros st ->. eexists. repeat split.
  - intros e ->. now destruct (fs.IsNotExist e).
Qed.

Lemma getFSMetadata_cases (os : fs.OS) (f : fs.fsClient) :
  fst (fs.getFSMetadata os f) = [fs.call_Stat (fs.Clean os (fs.path f))]
  /\ match fs.Stat os (fs.Clean os (fs.path f)) with
     | inl st =>
         snd (fs.getFSMetadata os f)
         = inl {| fs.Name := fs.fi_Name st; fs.Time := fs.fi_ModTime st;
                  fs.Size := fs.fi_Size st; fs.FileType := 0 |}
     | inr e =>
         snd (fs.getFSMetadata os f)
         = inr (fs.iodine_New (fs.iodine_New
                  (if fs.IsNotExist e then fs.FileNotFound (fs.path f)
                   else fs.os_err e)))
     end.
Proof.
  unfold fs.getFSMetadata, fs.fsStat. simpl. split; [reflexivity|].
  destruct (fs.Stat os (fs.Clean os (fs.path f))) as [st | e]; [reflexivity|].
  now destruct (fs.IsNotExist e).
Qed.

(** X13. [Get] returns a body only after [os.Stat] of the cleaned path has
    succeeded and [os.Open] of the path as given has too; the body is the
    opened file, the size is the size [os.Stat] gave and the md5 sum is
    always the empty string.  When [os.Stat] fails nothing is opened, and
    the error is [FileNotFound] of the client's path for a file that does not
    exist. *)
Theorem fs_Get (os : fs.OS) (f : fs.fsClient) :
  (forall body size md5,
      snd (fs.Get os f) = inl (body, size, md5) ->
      md5 = ""
      /\ fs.Open os (fs.path f) = inl body
      /\ (exists st, fs.Stat os (fs.Clean os (fs.path f)) = inl st
                     /\ size = fs.fi_Size st)
      /\ fst (fs.Get os f)
         = [fs.call_Stat (fs.Clean os (fs.path f)); fs.call_Open (fs.path f)])
  /\ (forall e,
        fs.Stat os (fs.Clean os (fs.path f)) = inr e ->
        fst (fs.Get os f) = [fs.call_Stat (fs.Clean os (fs.path f))]
        /\ exists err,
             snd (fs.Get os f) = inr err
             /\ fs.cause err = (if fs.IsNotExist e then fs.FileNotFound (fs.path f)
                                else fs.os_err e)).
Proof.
  destruct (getFSMetadata_cases os f) as [Hc Hr]. unfold fs.Get.
  destruct (fs.getFSMetadata os f) as [calls r]. simpl in Hc, Hr. subst calls.
  destruct (fs.Stat os (fs.Clean os (fs.path f))) as [st | e]; subst r; simpl; split.
  - intros body size md5.
    destruct (fs.Open os (fs.path f)) as [b | e]; [|discriminate].
    intros [= <- <- <-]. repeat split; eauto.
  - discriminate.
  - discriminate.
  - intros e' [= <-]. split; [reflexivity|]. eexists. split; [reflexivity|].
    now destruct (fs.IsNotExist e).
Qed.

(** X14. [Get] and [GetPartial] never refuse a directory: the item they
    test is the one [getFSMetadata] made, whose type is never set, so for a
    directory that [os.Stat] finds [Get] opens it and returns it as the
    body, and no error either of them returns is [FileISDir]. *)
Theorem fs_Get_directory (os : fs.OS) (f : fs.fsClient) :
  (forall st body,
      fs.Stat os (fs.Clean os (fs.path f)) = inl st ->
      fs.IsDir (fs.fi_Mode st) = true ->
      fs.Open os (fs.path f) = inl body ->
      snd (fs.Get os f) = inl (body, fs.fi_Size st, ""))
  /\ (forall e p, snd (fs.Get os f) = inr e -> fs.cause e <> fs.FileISDir p)
  /\ (forall offset length e p,
        snd (fs.GetPartial os f offset length) = Returned (inr e) ->
        fs.cause e <> fs.FileISDir p).
Proof.
  destruct (getFSMetadata_cases os f) as [Hc Hr].
  unfold fs.Get, fs.GetPartial.
  destruct (fs.getFSMetadata os f) as [calls r]. simpl in Hc, Hr. subst calls.
  destruct (fs.Stat os (fs.Clean os (fs.path f))) as [st | e]; subst r; simpl.
  - split; [|split].
    + intros st' body [= <-] _ ->. reflexivity.
    + intros e p. destruct (fs.Open os (fs.path f)) as [b | e']; [discriminate|].
      intros [= <-]. simpl. discriminate.
    + intros offset length e p.
      destruct (offset <? 0); [intros [= <-]; discriminate|].
      destruct ((offset >? fs.fi_Size st)
                || (fs.wrap64 (fs.wrap64 (offset + length) - 1) >? fs.fi_Size st));
        [intros [= <-]; discriminate|].
      simpl. destruct (fs.CopyN_nil os offset) as [[t|]| |]; try discriminate.
      intros [= <-]. discriminate.
  - split; [|split].
    + discriminate.
    + intros e' p [= <-]. simpl. destruct (fs.IsNotExist e); discriminate.
    + intros offset length e' p.
      destruct (offset <? 0); [intros [= <-]; discriminate|].
      simpl. intros [= <-]. simpl. destruct (fs.IsNotExist e); discriminate.
Qed.

(** X15. [GetPartial] with a negative offset returns [InvalidRange] of
    that offset at once: it makes no call on the system. *)
Theorem fs_GetPartial_negative_offset (os : fs.OS) (f : fs.fsClient) (offset length : Z) :
  offset < 0 ->
  fs.GetPartial os f offset length
  = ([], Returned (inr (fs.iodine_New (fs.InvalidRange offset)))).
Proof.
  intros Ho. unfold fs.GetPartial. apply Z.ltb_lt in Ho. now rewrite Ho.
Qed.

Lemma fs_GetPartial_negative_offset_witness :
  fs.GetPartial fs.stub_os {| fs.path := "/tmp/a" |} (-1) 4
  = ([], Returned (inr (fs.iodine_New (fs.InvalidRange (-1))))).
Proof.
  apply (fs_GetPartial_negative_offset fs.stub_os {| fs.path := "/tmp/a" |} (-1) 4).
  lia.
Defined.

Lemma wrap64_in_range z : - 2 ^ 63 <= z < 2 ^ 63 -> fs.wrap64 z = z.
Proof.
  intros Hz. unfold fs.wrap64. rewrite Z.mod_small; lia.
Qed.

(** X16. The range check of [GetPartial], for a file [os.Stat] finds, an
    offset that is not negative and a range whose ends fit 64 bits: the
    call goes on to the copy exactly when the offset is at most the size
    and offset + length - 1 is at most the size; otherwise it returns
    [InvalidRange] of the offset after the one call of [os.Stat]. *)
Theorem fs_GetPartial_range (os : fs.OS) (f : fs.fsClient) (offset length : Z) st :
  fs.Stat os (fs.Clean os (fs.path f)) = inl st ->
  0 <= offset ->
  - 2 ^ 63 <= offset + length < 2 ^ 63 ->
  - 2 ^ 63 <= offset + length - 1 ->
  (offset <= fs.fi_Size st /\ offset + length - 1 <= fs.fi_Size st ->
     fst (fs.GetPartial os f offset length)
     = [fs.call_Stat (fs.Clean os (fs.path f)); fs.call_CopyN offset])
  /\ (fs.fi_Size st < offset \/ fs.fi_Size st < offset + length - 1 ->
     fs.GetPartial os f offset length
     = ([fs.call_Stat (fs.Clean os (fs.path f))],
        Returned (inr (fs.iodine_New (fs.InvalidRange offset))))).
Proof.
  intros Hst Ho Hr1 Hr2.
  destruct (getFSMetadata_cases os f) as [Hc Hr]. rewrite Hst in Hr.
  unfold fs.GetPartial. rewrite (size_not_negative _ Ho).
  destruct (fs.getFSMetadata os f) as [calls r]. simpl in Hc, Hr. subst calls r.
  simpl. rewrite (wrap64_in_range (offset + length)) by lia.
  rewrite (wrap64_in_range (offset + length - 1)) by lia.
  split.
  - intros [H1 H2].
    assert (E1 : (offset >? fs.fi_Size st) = false).
    { rewrite Z.gtb_ltb. apply Z.ltb_ge. lia. }
    assert (E2 : (offset + length - 1 >? fs.fi_Size st) = false).
    { rewrite Z.gtb_ltb. apply Z.ltb_ge. lia. }
    rewrite E1, E2. reflexivity.
  - intros H.
    assert (E : (offset >? fs.fi_Size st) || (offset + length - 1 >? fs.fi_Size st) = true).
    { rewrite !Z.gtb_ltb. apply orb_true_iff.
      destruct H as [H | H]; [left | right]; apply Z.ltb_lt; lia. }
    rewrite E. reflexivity.
Qed.

Lemma fs_GetPartial_range_witness :
  fs.GetPartial fs.stub_os {| fs.path := "/tmp/a" |} 8 4
  = ([fs.call_Stat "/tmp/a"], Returned (inr (fs.iodine_New (fs.InvalidRange 8)))).
Proof.
  refine (proj2 (fs_GetPartial_range fs.stub_os {| fs.path := "/tmp/a" |} 8 4 _
                   eq_refl _ _ _) _); simpl; lia.
Defined.

(** X17. [GetPartial] never opens the file.  Among the calls it makes there
    is no [os.Open], and whenever it returns without an error the body it
    returns is nil; the size it returns is the length asked for and the md5
    sum is empty. *)
Theorem fs_GetPartial_no_body (os : fs.OS) (f : fs.fsClient) (offset length : Z) :
  List.filter fs.is_call_Open (fst (fs.GetPartial os f offset length)) = []
  /\ forall body size md5,
       snd (fs.GetPartial os f offset length) = Returned (inl (body, size, md5)) ->
       body = None /\ size = length /\ md5 = ""
       /\ fs.CopyN_nil os offset = Returned None.
Proof.
  destruct (getFSMetadata_cases os f) as [Hc Hr]. unfold fs.GetPartial.
  destruct (offset <? 0); [split; [reflexivity | discriminate]|].
  destruct (fs.getFSMetadata os f) as [calls r]. simpl in Hc, Hr. subst calls.
  destruct r as [item | e]; [|split; [reflexivity | discriminate]].
  destruct (fs.IsDir (fs.FileType item)); [split; [reflexivity | discriminate]|].
  destruct ((offset >? fs.Size item)
            || (fs.wrap64 (fs.wrap64 (offset + length) - 1) >? fs.Size item));
    [split; [reflexivity | discriminate]|].
  split; [reflexivity|]. simpl. intros body size md5.
  destruct (fs.CopyN_nil os offset) as [[t|]| |]; try discriminate.
  intros [= <- <- <-]. auto.
Qed.

Lemma walk_entries (vs : list fs.visit) :
  (existsb fs.is_fatal vs = false -> fs.walk vs = (fs.entries vs, None))
  /\ (forall pre fp fi e post,
        vs = pre ++ fs.visit_err fp fi e :: post ->
        existsb fs.is_fatal pre = false ->
        fs.IsPermission e = false ->
        fs.walk vs = (fs.entries pre, Some e)).
Proof.
  induction vs as [|v vs [IH1 IH2]]; split.
  - reflexivity.
  - intros [|? ?] ? ? ? ? ?; discriminate.
  - simpl. intros Hf. apply orb_false_iff in Hf as [Hv Hf].
    rewrite (IH1 Hf). unfold fs.entries. simpl.
    destruct v as [fp fi | fp fi e]; simpl in *; [reflexivity|].
    apply negb_false_iff in Hv. now rewrite Hv.
  - intros pre fp fi e post Hvs Hpre He. destruct pre as [|v' pre].
    + simpl in Hvs. injection Hvs as -> ->. simpl. now rewrite He.
    + simpl in Hvs. injection Hvs as -> ->. simpl in Hpre.
      apply orb_false_iff in Hpre as [Hv Hpre]. simpl.
      rewrite (IH2 pre fp fi e post eq_refl Hpre He). unfold fs.entries. simpl.
      destruct v' as [fp' fi' | fp' fi' e']; simpl in *; [reflexivity|].
      apply negb_false_iff in Hv. now rewrite Hv.
Qed.

Lemma first_fatal (vs : list fs.visit) :
  existsb fs.is_fatal vs = true ->
  exists pre fp fi e post,
    vs = pre ++ fs.visit_err fp fi e :: post
    /\ existsb fs.is_fatal pre = false
    /\ fs.IsPermission e = false.
Proof.
  induction vs as [|v vs IH]; [discriminate|]. simpl.
  destruct (fs.is_fatal v) eqn:Hv; simpl.
  - intros _. destruct v as [fp fi | fp fi e]; [discriminate|].
    exists [], fp, fi, e, vs. simpl in Hv. apply negb_true_iff in Hv. auto.
  - intros Hvs. destruct (IH Hvs) as (pre & fp & fi & e & post & -> & Hpre & He).
    exists (v :: pre), fp, fi, e, post. simpl. rewrite Hv. auto.
Qed.

Lemma entries_ok (vs : list fs.visit) i :
  In i (fs.entries vs) -> fs.Err_ i = None /\ fs.Item_ i <> None.
Proof.
  unfold fs.entries. rewrite in_flat_map. intros (v & _ & Hi).
  destruct v as [fp fi | fp fi e]; simpl in Hi.
  - destruct Hi as [<- | []]. simpl. split; [reflexivity | discriminate].
  - destruct (fs.IsPermission e); destruct Hi.
Qed.

(** X18. What [List] delivers, from the visits of the walk.  When no visit
    has an error other than a permission error, it is one entry for each
    visit without error, in order, and no error entry: visits with a
    permission error are skipped.  Otherwise the walk stops at the first
    visit with another error: the entries of the visits before it are
    delivered, then one entry with that error, wrapped, and nothing of the
    visits after it. *)
Theorem fs_List_entries (os : fs.OS) (f : fs.fsClient) :
  (existsb fs.is_fatal (fs.Walk os (fs.path f)) = false ->
     fs.List_ os f = fs.entries (fs.Walk os (fs.path f)))
  /\ (existsb fs.is_fatal (fs.Walk os (fs.path f)) = true ->
     exists pre fp fi e post,
       fs.Walk os (fs.path f) = pre ++ fs.visit_err fp fi e :: post
       /\ existsb fs.is_fatal pre = false
       /\ fs.IsPermission e = false
       /\ fs.List_ os f = fs.entries pre ++ [fs.error_entry e]).
Proof.
  unfold fs.List_, fs.listInGoroutine. split; intros Hf.
  - rewrite (proj1 (walk_entries _) Hf). now rewrite app_nil_r.
  - destruct (first_fatal _ Hf) as (pre & fp & fi & e & post & Hvs & Hpre & He).
    exists pre, fp, fi, e, post. repeat split; auto.
    now rewrite (proj2 (walk_entries _) pre fp fi e post Hvs Hpre He).
Qed.

(** X19. In what [List] delivers only the last entry can carry an error,
    so there is at most one; every entry carries either an item or an
    error, never both and never neither. *)
Theorem fs_List_error_last (os : fs.OS) (f : fs.fsClient) :
  (forall pre i post,
      fs.List_ os f = pre ++ i :: post -> post <> [] ->
      fs.Err_ i = None /\ fs.Item_ i <> None)
  /\ (length (List.filter fs.is_error_entry (fs.List_ os f)) <= 1)%nat
  /\ (forall i, In i (fs.List_ os f) -> (fs.Err_ i = None <-> fs.Item_ i <> None)).
Proof.
  assert (Hshape : exists ok tl,
             fs.List_ os f = ok ++ tl
             /\ (forall i, In i ok -> fs.Err_ i = None /\ fs.Item_ i <> None)
             /\ (tl = [] \/ exists e, tl = [fs.error_entry e])).
  { destruct (fs_List_entries os f) as [H1 H2].
    destruct (existsb fs.is_fatal (fs.Walk os (fs.path f))).
    - destruct (H2 eq_refl) as (pre & fp & fi & e & post & _ & _ & _ & ->).
      exists (fs.entries pre), [fs.error_entry e].
      split; [reflexivity|]. split; [apply entries_ok | eauto].
    - rewrite (H1 eq_refl). exists (fs.entries (fs.Walk os (fs.path f))), [].
      rewrite app_nil_r. split; [reflexivity|]. split; [apply entries_ok | auto]. }
  destruct Hshape as (ok & tl & -> & Hok & Htl).
  assert (Hfilter : List.filter fs.is_error_entry ok = []).
  { clear Htl. induction ok as [|i ok IH]; [reflexivity|]. cbn [List.filter].
    destruct (Hok i (or_introl eq_refl)) as [He _].
    unfold fs.is_error_entry at 1. rewrite He. apply IH.
    intros j Hj. apply Hok. now right. }
  split; [|split].
  - intros pre i post Heq Hpost. apply Hok.
    destruct Htl as [-> | [e ->]].
    + rewrite app_nil_r in Heq. rewrite Heq. apply in_elt.
    + destruct (exists_last Hpost) as (post' & last & ->).
      rewrite app_comm_cons, app_assoc in Heq.
      apply app_inj_tail in Heq as [-> _]. apply in_elt.
  - rewrite List.filter_app, Hfilter. destruct Htl as [-> | [e ->]]; simpl; lia.
  - intros i Hi. apply in_app_or in Hi as [Hi | Hi].
    + destruct (Hok i Hi) as [He Hit]. tauto.
    + destruct Htl as [-> | [e ->]]; [destruct Hi|].
      destruct Hi as [<- | []]. simpl. split; [discriminate | congruence].
Qed.

Lemma acl_cases (acl : string) :
  (acl = "private" /\ fs.aclToPerm acl = 448 /\ fs.isValidBucketACL acl = true)
  \/ (acl = "public-read" /\ fs.aclToPerm acl = 320 /\ fs.isValidBucketACL acl = true)
  \/ (acl = "public-read-write" /\ fs.aclToPerm acl = 511
      /\ fs.isValidBucketACL acl = true)
  \/ (acl = "" /\ fs.aclToPerm acl = 448 /\ fs.isValidBucketACL acl = true)
  \/ (acl <> "private" /\ acl <> "public-read" /\ acl <> "public-read-write"
      /\ acl <> "" /\ fs.aclToPerm acl = 448 /\ fs.isValidBucketACL acl = false).
Proof.
  unfold fs.aclToPerm, fs.isValidBucketACL.
  destruct (String.eqb_spec acl "private") as [-> | H1]; [auto|].
  destruct (String.eqb_spec acl "public-read") as [-> | H2]; [auto|].
  destruct (String.eqb_spec acl "public-read-write") as [-> | H3]; [auto 6|].
  destruct (String.eqb_spec acl "") as [-> | H4]; [auto 8|].
  do 4 right. auto 10.
Qed.

(** X20. The permissions of a bucket, for every ACL string.  The mode is
    0700, 0500 or 0777.  The owner can always read and enter the directory;
    the owner can write it unless the ACL is public-read; group and others
    get any access only with public-read-write, so public-read gives them
    none.  The empty ACL and every ACL that is not valid give the mode of
    private. *)
Theorem fs_aclToPerm (acl : string) :
  (fs.aclToPerm acl = 448 \/ fs.aclToPerm acl = 320 \/ fs.aclToPerm acl = 511)
  /\ Z.land (fs.aclToPerm acl) 320 = 320
  /\ (Z.land (fs.aclToPerm acl) 128 = 0 <-> acl = "public-read")
  /\ (Z.land (fs.aclToPerm acl) 63 <> 0 <-> acl = "public-read-write")
  /\ (acl = "" \/ fs.isValidBucketACL acl = false ->
      fs.aclToPerm acl = fs.aclToPerm "private").
Proof.
  destruct (acl_cases acl)
    as [(-> & _ & _) | [(-> & _ & _) | [(-> & _ & _) | [(-> & _ & _) |
        (H1 & H2 & H3 & H4 & Hp & Hv)]]]];
    try (vm_compute; repeat split; auto; try discriminate; try tauto;
         intros [? | ?]; discriminate).
  rewrite Hp. repeat split; auto; try (vm_compute; discriminate);
    try (intros; congruence).
  intros Hl. exfalso. apply Hl. reflexivity.
Qed.

(** X21. [PutBucket] with an ACL that is not one of private, public-read,
    public-read-write and the empty string returns the error "invalid acl"
    and makes no call on the system.  With a valid ACL it calls
    [os.MkdirAll] and then, only when that has succeeded, [os.Chmod], both
    on the client's path with the mode of the ACL; it returns nil exactly
    when both succeed. *)
Theorem fs_PutBucket (os : fs.OS) (f : fs.fsClient) (acl : string) :
  let perm := fs.aclToPerm acl in
  (fs.isValidBucketACL acl = true
   <-> acl = "private" \/ acl = "public-read" \/ acl = "public-read-write" \/ acl = "")
  /\ (fs.isValidBucketACL acl = false ->
      fs.PutBucket os f acl
      = ([], Some (fs.iodine_New (fs.errors_New "invalid acl"))))
  /\ (fs.isValidBucketACL acl = true ->
      fst (fs.PutBucket os f acl)
      = fs.call_MkdirAll (fs.path f) perm ::
        match fs.MkdirAll os (fs.path f) perm with
        | None => [fs.call_Chmod (fs.path f) perm]
        | Some _ => []
        end)
  /\ (snd (fs.PutBucket os f acl) = None
      <-> fs.isValidBucketACL acl = true
          /\ fs.MkdirAll os (fs.path f) perm = None
          /\ fs.Chmod os (fs.path f) perm = None).
Proof.
  intros perm. split; [|split; [|split]].
  - destruct (acl_cases acl)
      as [(-> & _ & Hv) | [(-> & _ & Hv) | [(-> & _ & Hv) | [(-> & _ & Hv) |
          (H1 & H2 & H3 & H4 & _ & Hv)]]]]; rewrite Hv; split; auto;
      try discriminate.
    intros [? | [? | [? | ?]]]; congruence.
  - intros Hv. unfold fs.PutBucket. now rewrite Hv.
  - intros Hv. unfold fs.PutBucket. rewrite Hv. simpl. fold perm.
    now destruct (fs.MkdirAll os (fs.path f) perm).
  - unfold fs.PutBucket. fold perm.
    destruct (fs.isValidBucketACL acl); simpl.
    + destruct (fs.MkdirAll os (fs.path f) perm); simpl.
      * split; [discriminate | intros (_ & ? & _); discriminate].
      * destruct (fs.Chmod os (fs.path f) perm); simpl.
        -- split; [discriminate | intros (_ & _ & ?); discriminate].
        -- split; auto.
    + split; [discriminate | intros (? & _); discriminate].
Qed.

(** On the system with the one file [/tmp/a]: [Get] of it, [Get] of a file
    that is not there, [GetPartial] from the start, and the listing of a
    walk with a permission error and then another error. *)
Example fs_Get_file :
  fs.Get fs.stub_os {| fs.path := "/tmp/a" |}
  = ([fs.call_Stat "/tmp/a"; fs.call_Open "/tmp/a"], inl (fs.file_at "/tmp/a", 10, "")).
Proof. reflexivity. Qed.

Example fs_Get_missing :
  fs.Get fs.stub_os {| fs.path := "/tmp/x" |}
  = ([fs.call_Stat "/tmp/x"],
     inr (fs.iodine_New (fs.iodine_New (fs.iodine_New (fs.FileNotFound "/tmp/x"))))).
Proof. reflexivity. Qed.

Example fs_GetPartial_start :
  snd (fs.GetPartial fs.stub_os {| fs.path := "/tmp/a" |} 0 4)
  = Returned (inl (None, 4, "")).
Proof. reflexivity. Qed.

Example fs_List_stops :
  fs.List_ fs.stub_os {| fs.path := "/tmp" |}
  = [{| fs.Item_ := Some {| fs.Name := "/tmp/a"; fs.Time := 0; fs.Size := 10;
                            fs.FileType := 420 |};
        fs.Err_ := None |};
     fs.error_entry (fs.PathError "lstat" "/tmp/c" 5)].
Proof. reflexivity. Qed.

(** ** A failure against a [Close] that waits *)

(** C2.  On every failure path of the goroutine there is a schedule on
    which the caller's [Close] is blocked in [Wait] when the goroutine
    fails, and does not see the failure.  The caller calls [Close] and
    waits; the goroutine closes the read end with the error [e] and runs
    [b.release.Done()], the first statement of [Release(e)]; [Wait] returns
    and [Close] returns [b.err], still nil; then the goroutine records [e].
    The wait group is counted down while the handle still holds the stale
    nil. *)
Theorem blocked_Close_misses_the_failure c md5HexString size bucket object e :
  failure c md5HexString size bucket object e ->
  exists s1 sched s,
    run [caller_runs; caller_runs]
      (start fresh_world (Put_go c md5HexString size bucket object) [call_Close])
    = Some s1
    /\ step caller_runs s1 = None
    /\ run sched s1 = Some s
    /\ finished s = true
    /\ crashed s = false
    /\ results s = [Close_returned None]
    /\ io.rerr (w (blockingWriter (shared s))) = Some e
    /\ err (blockingWriter (shared s)) = Some e.
Proof.
  intros Hf. destruct (failure_Put_go _ _ _ _ _ _ Hf) as [Hl | [req Hl]]; rewrite Hl.
  - eexists _, [go_runs; go_runs; caller_runs; caller_runs; go_runs], _.
    split; [simpl; reflexivity|]. split; [reflexivity|].
    split; [simpl; reflexivity|]. simpl. repeat split.
  - eexists _, [go_runs; go_runs; go_runs; go_runs; caller_runs; caller_runs; go_runs], _.
    split; [simpl; reflexivity|]. split; [reflexivity|].
    split; [simpl; reflexivity|]. simpl. repeat split.
Qed.

Lemma blocked_Close_misses_the_failure_witness :
  exists s1 sched s,
    run [caller_runs; caller_runs]
      (start fresh_world (Put_go (stub_client (inl OK)) "" (-1) "bucket" "object")
         [call_Close])
    = Some s1
    /\ step caller_runs s1 = None
    /\ run sched s1 = Some s
    /\ results s = [Close_returned None]
    /\ err (blockingWriter (shared s))
       = Some (iodine.New (InvalidArgument (errors_New "invalid argument"))).
Proof.
  assert (Hf : failure (stub_client (inl OK)) "" (-1) "bucket" "object"
                 (iodine.New (InvalidArgument (errors_New "invalid argument"))))
    by (apply negative_size; lia).
  destruct (blocked_Close_misses_the_failure _ _ _ _ _ _ Hf)
    as (s1 & sched & s & H1 & H2 & H3 & _ & _ & H4 & _ & H5).
  exists s1, sched, s. auto.
Defined.

(** C4.  For every answer of the transport with a status other than 200
    there is a schedule on which [Close] returns nil.  The goroutine has
    made of the answer the error [NewError] gives, closed the read end with
    it and run [b.release.Done()]; [Close], which was waiting, returns
    [b.err] before [Release] has recorded the error. *)
Theorem Close_misses_the_rejection c md5HexString size bucket object req req' res :
  0 <= size ->
  newRequest c "PUT" (objectURL c bucket object) http.PipeReader = inl req ->
  set_ContentMD5 md5HexString
    (http.set_ContentLength size (http.set_Method "PUT" req)) = inl req' ->
  Transport c (sign c req') = inl res ->
  http.StatusCode res <> 200 ->
  exists s,
    run [caller_runs; caller_runs; go_runs; go_runs; go_runs; go_runs;
         caller_runs; caller_runs; go_runs]
      (start fresh_world (Put_go c md5HexString size bucket object) [call_Close])
    = Some s
    /\ finished s = true
    /\ crashed s = false
    /\ RoundTrips (shared s) = [sign c req']
    /\ results s = [Close_returned None]
    /\ err (blockingWriter (shared s)) = Some (iodine.New (NewError res)).
Proof.
  intros Hs Hreq Hmd5 Ht Hst.
  assert (Hl : Put_go c md5HexString size bucket object
               = Transport_RoundTrip (sign c req') ::
                 abort (iodine.New (NewError res))).
  { unfold Put_go.
    now rewrite (size_not_negative _ Hs), Hreq, Hmd5, Ht, (status_not_OK_test res Hst). }
  rewrite Hl. generalize (sign c req'). intros rq.
  eexists. split; [simpl; reflexivity|]. simpl. repeat split.
Qed.

Lemma Close_misses_the_rejection_witness :
  exists s,
    run [caller_runs; caller_runs; go_runs; go_runs; go_runs; go_runs;
         caller_runs; caller_runs; go_runs]
      (start fresh_world (Put_go (stub_client (inl Forbidden)) "" 0 "bucket" "object")
         [call_Close])
    = Some s
    /\ results s = [Close_returned None]
    /\ err (blockingWriter (shared s))
       = Some (iodine_Error (s3_Error
            {| http.StatusCode := 403; http.ResponseBody := "Forbidden" |})).
Proof.
  assert (Hst : http.StatusCode Forbidden <> 200) by (simpl; lia).
  destruct (Close_misses_the_rejection (stub_client (inl Forbidden)) "" 0
              "bucket" "object" _ _ Forbidden (Z.le_refl 0) eq_refl eq_refl eq_refl Hst)
    as (s & H1 & _ & _ & _ & H2 & H3).
  exists s. auto.
Defined.

(** ** Writing after the goroutine has failed, under every schedule *)

Lemma start_failing c md5HexString size bucket object e cs :
  failure c md5HexString size bucket object e ->
  failing e (start fresh_world (Put_go c md5HexString size bucket object) cs).
Proof.
  intros Hf. left. split; [reflexivity|]. simpl.
  destruct (failure_Put_go _ _ _ _ _ _ Hf) as [Hl | [req Hl]]; rewrite Hl.
  - exists []. auto.
  - exists [Transport_RoundTrip req]. auto.
Qed.

Lemma go_step_after_abort e s s' :
  after_abort e s -> go_step s = Some s' ->
  after_abort e s'
  /\ calls s' = calls s /\ at_pos s' = at_pos s /\ results s' = results s
  /\ w (blockingWriter (shared s')) = w (blockingWriter (shared s))
  /\ (err (blockingWriter (shared s')) = err (blockingWriter (shared s))
      \/ err (blockingWriter (shared s')) = Some e).
Proof.
  intros (Hr & Hin & Hgo). unfold go_step, after_abort.
  destruct Hgo as [Hgo | [Hgo | Hgo]]; rewrite Hgo; [| |discriminate].
  - unfold Release_call, exec, release_Done, zoom, sync.Done, sync.Add.
    destruct (sync.counter (release (blockingWriter (shared s))) + -1 <? 0);
      intros [= <-]; simpl; auto 10.
  - simpl. intros [= <-]. simpl. auto 10.
Qed.

Lemma step_after_abort e l s s' :
  after_abort e s -> step l s = Some s' -> after_abort e s'.
Proof.
  intros Ha. unfold step. destruct (crashed s); [discriminate|].
  destruct l as [| |k]; intros Hstep.
  - destruct (caller_step_frame s s' Hstep) as (_ & F2 & F3 & _ & _ & F6).
    destruct Ha as (Hr & Hin & Hgo). unfold after_abort. rewrite F2, F3, F6. auto.
  - now destruct (go_step_after_abort e s s' Ha Hstep).
  - destruct Ha as (_ & Hin & _). unfold read_step in Hstep. rewrite Hin in Hstep.
    discriminate.
Qed.

Lemma step_failing e l s s' :
  failing e s -> step l s = Some s' -> failing e s'.
Proof.
  intros [Hb | Ha] Hstep; [|right; eapply step_after_abort; eauto].
  revert Hstep. unfold step. destruct (crashed s); [discriminate|].
  destruct Hb as (Hr & pre & Hgo & Hpre).
  destruct l as [| |k]; intros Hstep.
  - destruct (caller_step_frame s s' Hstep) as (_ & F2 & _ & _ & _ & F6).
    left. unfold before_abort. rewrite F2, F6. eauto.
  - unfold go_step in Hstep. rewrite Hgo in Hstep.
    destruct pre as [|i pre].
    + simpl in Hstep. injection Hstep as <-. right. unfold after_abort. simpl. auto.
    + simpl in Hpre. apply andb_true_iff in Hpre as [Hi Hpre].
      destruct i; try discriminate. simpl in Hstep.
      destruct (in_RoundTrip s); injection Hstep as <-; left; unfold before_abort;
        simpl; (split; [exact Hr|]).
      * exists pre. auto.
      * exists (Transport_RoundTrip req :: pre). simpl. rewrite Hpre. auto.
  - unfold read_step in Hstep. destruct (in_RoundTrip s); [|discriminate].
    injection Hstep as <-. left. unfold before_abort, io.read. simpl.
    split; [|eauto].
    now destruct (io.data (w (blockingWriter (shared s)))).
Qed.

Lemma run_failing e sched s s' :
  failing e s -> run sched s = Some s' -> failing e s'.
Proof.
  revert s. induction sched as [|l sched IH]; intros s Hf Hrun; simpl in Hrun.
  - now injection Hrun as <-.
  - destruct (step l s) as [s1|] eqn:Hstep; [|discriminate].
    eapply IH; [eapply step_failing|]; eauto.
Qed.

(** A [Write] under way on a closed read end goes on to its return, and
    the caller is never blocked in it. *)
Lemma caller_step_writing e R p s :
  after_abort e s -> writing e R p s -> results s = R ->
  exists s', caller_step s = Some s' /\ writing e R p s'.
Proof.
  intros (Hr & _) Hw HR. unfold caller_step, writing.
  destruct Hw as [(_ & Hpos & (rest & Hcalls) & Hwerr)
                 | [(_ & Hpos & Hcalls & Hdata)
                 | [(_ & Hpos & Hcalls)
                 | [(_ & Hpos & Hcalls & Herr)
                 | (more & Hmore)]]]].
  - rewrite Hpos, Hcalls. unfold io.write_offer. rewrite Hwerr.
    eexists. split; [reflexivity|]. simpl.
    right. left. rewrite Hcalls. repeat split; auto; try discriminate; try congruence.
  - rewrite Hpos. destruct (calls s) as [|c cs] eqn:Hc; [congruence|].
    unfold io.write_wait. rewrite Hdata, Hr, Nat.sub_diag.
    eexists. split; [reflexivity|]. simpl. rewrite Hc.
    right. right. left. repeat split; auto; try discriminate; try congruence.
  - rewrite Hpos. destruct (calls s) as [|c cs] eqn:Hc; [congruence|].
    eexists. split; [reflexivity|]. simpl. rewrite Hc.
    right. right. right. left. repeat split; auto; try discriminate; try congruence.
  - rewrite Hpos. destruct (calls s) as [|c cs] eqn:Hc; [congruence|].
    eexists. split; [reflexivity|]. simpl.
    do 4 right. exists []. now rewrite HR, Herr.
  - exfalso. rewrite HR in Hmore.
    apply (f_equal (@length result)) in Hmore. rewrite length_app in Hmore.
    simpl in Hmore. lia.
Qed.

Lemma step_writing e R p l s s' :
  after_abort e s -> writing e R p s -> step l s = Some s' -> writing e R p s'.
Proof.
  intros Ha Hw. unfold step. destruct (crashed s); [discriminate|].
  destruct l as [| |k]; intros Hstep.
  - assert (Hcase : results s = R
                    \/ exists more, results s = R ++ Write_returned 0 (Some e) :: more).
    { destruct Hw as [(HR & _) | [(HR & _) | [(HR & _) | [(HR & _) | Hmore]]]]; auto. }
    destruct Hcase as [HR | (more & Hmore)].
    + destruct (caller_step_writing e R p s Ha Hw HR) as (s1 & Hs1 & Hw1).
      rewrite Hs1 in Hstep. now injection Hstep as <-.
    + do 4 right. unfold caller_step in Hstep.
      step_cases; simplify_eq; simpl; rewrite ?Hmore; eauto;
        rewrite <- app_assoc; simpl; eauto.
  - destruct (go_step_after_abort e s s' Ha Hstep) as (_ & G1 & G2 & G3 & G4 & G5).
    unfold writing. rewrite G1, G2, G3, G4.
    destruct Hw as [H1 | [H2 | [H3 | [(HR & Hpos & Hcalls & Herr) | H5]]]]; auto 10.
    right. right. right. left. repeat split; auto.
    destruct G5 as [G5 | G5]; congruence.
  - destruct Ha as (_ & Hin & _). unfold read_step in Hstep. rewrite Hin in Hstep.
    discriminate.
Qed.

Lemma run_writing e R p sched s s' :
  after_abort e s -> writing e R p s -> run sched s = Some s' ->
  after_abort e s' /\ writing e R p s'.
Proof.
  revert s. induction sched as [|l sched IH]; intros s Ha Hw Hrun; simpl in Hrun.
  - injection Hrun as <-. auto.
  - destruct (step l s) as [s1|] eqn:Hstep; [|discriminate].
    apply (IH s1); auto; [eapply step_after_abort | eapply step_writing]; eauto.
Qed.

Lemma write_runs e p rest s :
  crashed s = false ->
  io.rerr (w (blockingWriter (shared s))) = Some e ->
  io.werr (w (blockingWriter (shared s))) = None ->
  at_pos s = Idle ->
  calls s = call_Write p :: rest ->
  exists s',
    run [caller_runs; caller_runs; caller_runs; caller_runs] s = Some s'
    /\ results s' = results s ++ [Write_returned 0 (Some e)].
Proof.
  destruct s as [[[[d r wr] rel er] rts] cs pos res g inr cr]. simpl.
  intros -> -> -> -> ->. cbn. rewrite Nat.sub_diag.
  eexists. split; reflexivity.
Qed.

(** C5.  Under every schedule, on every failure path: a [Write] that the
    caller starts once the goroutine has closed the read end of the pipe,
    on a handle the caller has not closed, returns no byte accepted and the
    error of the failure.  The caller is never blocked in it: four
    statements of the caller bring it to its return, and however the
    goroutine's [Release] is scheduled among them the result that follows
    those already returned is [(0, e)].  (A [Write] after the caller's own
    [Close] is past the use the handle is made for.) *)
Theorem Write_after_failure_under_every_schedule
    c md5HexString size bucket object e cs sched1 s1 p rest :
  failure c md5HexString size bucket object e ->
  run sched1 (start fresh_world (Put_go c md5HexString size bucket object) cs)
  = Some s1 ->
  io.rerr (w (blockingWriter (shared s1))) <> None ->
  io.werr (w (blockingWriter (shared s1))) = None ->
  at_pos s1 = Idle ->
  calls s1 = call_Write p :: rest ->
  io.rerr (w (blockingWriter (shared s1))) = Some e
  /\ (exists s',
        run [caller_runs; caller_runs; caller_runs; caller_runs] s1 = Some s'
        /\ results s' = results s1 ++ [Write_returned 0 (Some e)])
  /\ forall sched2 s2,
       run sched2 s1 = Some s2 ->
       (results s2 = results s1 /\ exists s3, step caller_runs s2 = Some s3)
       \/ exists more, results s2 = results s1 ++ Write_returned 0 (Some e) :: more.
Proof.
  intros Hf Hrun1 Hr Hwerr Hpos Hcalls.
  pose proof (run_Inv _ _ _ _ (start_Inv c md5HexString size bucket object cs) Hrun1)
    as HI1.
  assert (Ha : after_abort e s1).
  { destruct (run_failing e _ _ _ (start_failing _ _ _ _ _ _ cs Hf) Hrun1)
      as [(Hnone & _) | Ha]; [congruence | exact Ha]. }
  assert (Hw : writing e (results s1) p s1).
  { left. eauto. }
  split; [apply Ha|]. split.
  - destruct HI1 as (Hc & _). destruct Ha as (Hre & _).
    exact (write_runs e p rest s1 Hc Hre Hwerr Hpos Hcalls).
  - intros sched2 s2 Hrun2.
    destruct (run_writing e (results s1) p sched2 s1 s2 Ha Hw Hrun2) as [Ha2 Hw2].
    pose proof (run_Inv _ _ _ _ HI1 Hrun2) as (Hc2 & _).
    assert (Hcase : results s2 = results s1
                    \/ exists more,
                         results s2 = results s1 ++ Write_returned 0 (Some e) :: more).
    { destruct Hw2 as [(HR & _) | [(HR & _) | [(HR & _) | [(HR & _) | Hmore]]]]; auto. }
    destruct Hcase as [HR | Hmore]; [left | right; exact Hmore].
    split; [exact HR|].
    destruct (caller_step_writing e (results s1) p s2 Ha2 Hw2 HR) as (s3 & Hs3 & _).
    exists s3. unfold step. now rewrite Hc2.
Qed.

Lemma Write_after_failure_under_every_schedule_witness :
  exists s1 s2,
    run [go_runs; go_runs; go_runs]
      (start fresh_world (Put_go (stub_client (inl Forbidden)) "" 5 "bucket" "object")
         [call_Write hello])
    = Some s1
    /\ run [caller_runs; caller_runs; go_runs; caller_runs; go_runs; caller_runs] s1
       = Some s2
    /\ exists more,
         results s2
         = results s1 ++ Write_returned 0 (Some (iodine.New (NewError Forbidden))) :: more.
Proof.
  assert (Hf : failure (stub_client (inl Forbidden)) "" 5 "bucket" "object"
                 (iodine.New (NewError Forbidden))).
  { eapply status_not_OK;
      [lia | reflexivity | reflexivity | reflexivity | unfold http.StatusOK; simpl; lia]. }
  assert (H1 : exists s1,
             run [go_runs; go_runs; go_runs]
               (start fresh_world
                  (Put_go (stub_client (inl Forbidden)) "" 5 "bucket" "object")
                  [call_Write hello]) = Some s1
             /\ io.rerr (w (blockingWriter (shared s1))) <> None
             /\ io.werr (w (blockingWriter (shared s1))) = None
             /\ at_pos s1 = Idle
             /\ calls s1 = [call_Write hello]
             /\ exists s2,
                  run [caller_runs; caller_runs; go_runs; caller_runs; go_runs;
                       caller_runs] s1 = Some s2
                  /\ results s2 <> results s1).
  { eexists. split; [vm_compute; reflexivity|]. vm_compute.
    repeat split; try discriminate. eexists. split; [reflexivity | discriminate]. }
  destruct H1 as (s1 & Hrun1 & Hr & Hw & Hpos & Hcalls & s2 & Hrun2 & Hne).
  destruct (Write_after_failure_under_every_schedule _ _ _ _ _ _ _ _ s1 hello []
              Hf Hrun1 Hr Hw Hpos Hcalls) as (_ & _ & Hall).
  exists s1, s2. split; [exact Hrun1|]. split; [exact Hrun2|].
  destruct (Hall _ s2 Hrun2) as [[HR _] | Hmore]; [congruence | exact Hmore].
Defined.
